(** * pdm-bump: dynamic version lookup and in-place rewrite

    A shallow embedding of [src/pdm_bump/dynamic.py]: the regular
    expression [DEFAULT_REGEX], the file-backed [DynamicVersionConfig]
    (the specification's PatternFileVersionStore) and the caching
    [DynamicVersionSource] (the specification's DynamicVersionResolver).

    Conventions of the model.
    - A Python [str] read from or written to a file is a list of Unicode
      code points ([text]).  Identifiers, manifest keys, manifest strings
      and exception messages are Rocq strings.
    - A file is held as the code points that the encoding of the
      platform decodes from it.  A text-mode read delivers them with
      universal newlines; a text-mode write truncates the file, turns
      every line feed into the line separator of the platform and
      raises [UnicodeEncodeError], leaving the file empty, when the
      encoding has no code for one of the code points.  The encoding
      is taken to decode what it has encoded to the same code points.
      Files that the encoding cannot decode, and failures of the
      operating system to open an existing file, are outside the model.
    - Exceptions are values of [exn]; an operation of an object runs in a
      state-and-exception monad over that object and the world. *)

From Stdlib Require Import ZArith NArith String Ascii Lia.
From stdpp Require Import base option list gmap strings pretty.

Set Warnings "-register-all".

Local Open Scope string_scope.
Local Open Scope list_scope.
Local Open Scope nat_scope.

(** ** Text *)

(** A code point. *)
Definition char : Type := N.
Abbreviation text := (list char).

Definition char_of_ascii (a : ascii) : char := N_of_ascii a.

Fixpoint text_of_string (s : string) : text :=
  match s with
  | EmptyString => []
  | String a s' => char_of_ascii a :: text_of_string s'
  end.

Definition NEWLINE : char := 10%N.
Definition DQUOTE : char := 34%N.
Definition SQUOTE : char := 39%N.
Definition HASH : char := 35%N.
Definition EQUALS : char := 61%N.
Definition CR : char := 13%N.

(** [str.isspace] on one code point, which is what the category [\s] of
    a [str] pattern tests. *)
Definition is_space (c : char) : bool :=
  ((9 <=? c) && (c <=? 13) || (28 <=? c) && (c <=? 32)
   || (c =? 133) || (c =? 160) || (c =? 5760)
   || (8192 <=? c) && (c <=? 8202)
   || (c =? 8232) || (c =? 8233) || (c =? 8239) || (c =? 8287)
   || (c =? 12288))%N.

(** Python slices [s[:z]] and [s[z:]]: a negative bound counts from the
    end, and bounds are clamped to the string. *)
Definition slice_to (s : text) (z : Z) : text :=
  if (z <? 0)%Z then take (Z.to_nat (Z.of_nat (length s) + z)) s
  else take (Z.to_nat z) s.

Definition slice_from (s : text) (z : Z) : text :=
  if (z <? 0)%Z then drop (Z.to_nat (Z.of_nat (length s) + z)) s
  else drop (Z.to_nat z) s.

(** [s[a:b]] for bounds inside the string, as [Match.group] uses it. *)
Definition substring (s : text) (a b : nat) : text := take (b - a) (drop a s).

(** ** Newlines of text-mode files *)

(** What a read of a file opened in text mode without [newline] does
    to the line ends: a carriage return followed by a line feed, and a
    carriage return alone, are delivered as one line feed.  [after_cr]
    tells that the character before was a carriage return, whose line
    feed has been delivered already. *)
Fixpoint translate_newlines (after_cr : bool) (s : text) : text :=
  match s with
  | [] => []
  | c :: s' =>
      if (c =? CR)%N then NEWLINE :: translate_newlines true s'
      else if (c =? NEWLINE)%N && after_cr then translate_newlines false s'
      else c :: translate_newlines false s'
  end.

Definition universal_newlines (s : text) : text := translate_newlines false s.

(** [os.name] and [os.linesep]. *)
Inductive os_name : Type := posix | nt.

Definition linesep (os : os_name) : text :=
  match os with
  | posix => [NEWLINE]
  | nt => [CR; NEWLINE]
  end.

(** What a write to a file opened in text mode without [newline] does:
    every line feed becomes [os.linesep]. *)
Definition write_translate (os : os_name) (s : text) : text :=
  flat_map (fun c => if (c =? NEWLINE)%N then linesep os else [c]) s.

(** ** The fragment of [re] that the module uses *)

(** One-character items. *)
Inductive cclass : Type :=
| CLit (c : char)            (* a literal character *)
| CAny                       (* [.] without DOTALL: anything but a newline *)
| CSpace                     (* [\s] *)
| CSet (cs : list char).     (* [[...]] *)

Definition cclass_matches (cc : cclass) (c : char) : bool :=
  match cc with
  | CLit x => (x =? c)%N
  | CAny => negb (c =? NEWLINE)%N
  | CSpace => is_space c
  | CSet cs => existsb (fun x => (x =? c)%N) cs
  end.

Inductive regex : Type :=
| REmpty
| RChar (cc : cclass)
| RBol                                        (* [^] *)
| REol                                        (* [$] *)
| RSeq (r1 r2 : regex)
| ROpt (r : regex)                            (* greedy [r?] *)
| RRepeat (lazy : bool) (min : nat) (cc : cclass)
      (* [cc*], [cc+] and their lazy forms [cc*?], [cc+?] *)
| RGroup (name : string) (r : regex).         (* [(?P<name>r)] *)

Fixpoint RLit (s : text) : regex :=
  match s with
  | [] => REmpty
  | c :: s' => RSeq (RChar (CLit c)) (RLit s')
  end.

(** A compiled pattern: the expression and the MULTILINE flag. *)
Record Pattern : Type := compile_re {
  pattern_regex : regex;
  pattern_multiline : bool
}.

Fixpoint group_names (r : regex) : list string :=
  match r with
  | RSeq r1 r2 => group_names r1 ++ group_names r2
  | ROpt r1 => group_names r1
  | RGroup n r1 => n :: group_names r1
  | _ => []
  end.

(** Positions are offsets into the subject; captured groups are kept
    most recent first. *)
Abbreviation captures := (list (string * (nat * nat))).

Fixpoint capture_lookup (name : string) (caps : captures) : option (nat * nat) :=
  match caps with
  | [] => None
  | (n, sp) :: caps' => if String.eqb n name then Some sp else capture_lookup name caps'
  end.

Definition at_bol (multiline : bool) (s : text) (i : nat) : bool :=
  match i with
  | 0 => true
  | S j => multiline &&
           match s !! j with Some c => (c =? NEWLINE)%N | None => false end
  end.

Definition at_eol (multiline : bool) (s : text) (i : nat) : bool :=
  match s !! i with
  | None => Nat.eqb i (length s)
  | Some c => (c =? NEWLINE)%N && (multiline || Nat.eqb (S i) (length s))
  end.

(** Number of consecutive characters of class [cc] from offset [i]. *)
Fixpoint run_length (cc : cclass) (s : text) : nat :=
  match s with
  | c :: s' => if cclass_matches cc c then S (run_length cc s') else 0
  | [] => 0
  end.

Section Matcher.
Context {R : Type}.

(** Greedy repetition: offer the longest run first, then give back one
    character at a time, [n] more times. *)
Fixpoint try_down (k : nat -> option R) (base n : nat) : option R :=
  match k (base + n) with
  | Some r => Some r
  | None => match n with 0 => None | S n' => try_down k base n' end
  end.

(** Lazy repetition: offer the shortest run first, then take one more
    character at a time, [n] more times. *)
Fixpoint try_up (k : nat -> option R) (pos n : nat) : option R :=
  match k pos with
  | Some r => Some r
  | None => match n with 0 => None | S n' => try_up k (S pos) n' end
  end.

(** The backtracking matcher in continuation-passing style: [k] is
    what remains of the pattern, and the first alternative that lets
    [k] succeed wins. *)
Fixpoint rmatch (multiline : bool) (s : text) (r : regex) (i : nat)
    (caps : captures) (k : nat -> captures -> option R) : option R :=
  match r with
  | REmpty => k i caps
  | RChar cc =>
      match s !! i with
      | Some c => if cclass_matches cc c then k (S i) caps else None
      | None => None
      end
  | RBol => if at_bol multiline s i then k i caps else None
  | REol => if at_eol multiline s i then k i caps else None
  | RSeq r1 r2 =>
      rmatch multiline s r1 i caps
             (fun j caps' => rmatch multiline s r2 j caps' k)
  | ROpt r1 =>
      match rmatch multiline s r1 i caps k with
      | Some res => Some res
      | None => k i caps
      end
  | RRepeat lazy min cc =>
      let n := run_length cc (drop i s) in
      if (n <? min)%nat then None
      else if lazy then try_up (fun j => k j caps) (i + min) (n - min)
      else try_down (fun j => k j caps) (i + min) (n - min)
  | RGroup name r1 =>
      rmatch multiline s r1 i caps
             (fun j caps' => k j ((name, (i, j)) :: caps'))
  end.
End Matcher.

(** A match object: the subject, the span of the whole match, the
    groups that took part, and the group names of the pattern. *)
Record Match : Type := mkMatch {
  match_string : text;
  match_start : nat;
  match_end : nat;
  match_groups : captures;
  match_names : list string
}.

Definition match_at (p : Pattern) (s : text) (i : nat) : option Match :=
  rmatch (pattern_multiline p) s (pattern_regex p) i []
         (fun j caps => Some (mkMatch s i j caps (group_names (pattern_regex p)))).

(** [Pattern.search]: the leftmost start offset that matches, tried
    from [i] for [n] more offsets. *)
Fixpoint search_from (p : Pattern) (s : text) (i n : nat) : option Match :=
  match match_at p s i with
  | Some m => Some m
  | None => match n with 0 => None | S n' => search_from p s (S i) n' end
  end.

Definition search (p : Pattern) (s : text) : option Match :=
  search_from p s 0 (length s).

(** [DEFAULT_REGEX], compiled with [re.M].  The source pattern is, item
    by item: the anchor ^, the literal __version__, \s* , the literal = ,
    \s* , a quote set (double or single quote), the named group
    version holding the lazy .+? , a quote set again, \s* , an optional
    non-capturing group (a # followed by a greedy .* ), the anchor $. *)
Definition DEFAULT_REGEX : Pattern :=
  compile_re
    (RSeq RBol
    (RSeq (RLit (text_of_string "__version__"))
    (RSeq (RRepeat false 0 CSpace)
    (RSeq (RChar (CLit EQUALS))
    (RSeq (RRepeat false 0 CSpace)
    (RSeq (RChar (CSet [DQUOTE; SQUOTE]))
    (RSeq (RGroup "version" (RRepeat true 1 CAny))
    (RSeq (RChar (CSet [DQUOTE; SQUOTE]))
    (RSeq (RRepeat false 0 CSpace)
    (RSeq (ROpt (RSeq (RChar (CLit HASH)) (RRepeat false 0 CAny)))
          REol))))))))))
    true.

(** ** Exceptions *)

(** The exceptions that the module raises itself ([ValueError]) or meets
    in the calls it makes. *)
Inductive exn : Type :=
| ValueError (msg : string)
| NameError (name : string)
| AttributeError (class attr : string)
| TypeError (msg : string)
| IndexError (msg : string)
| FileNotFoundError (file : string)
| UnicodeEncodeError (reason : string)
| InvalidVersion (msg : string).

(** [Match.group(name)]: [IndexError] for a name the pattern does not
    define, [None] for a group that took no part in the match. *)
Definition Match_group (m : Match) (name : string) : exn + option text :=
  if bool_decide (name ∈ match_names m) then
    inr (match capture_lookup name (match_groups m) with
         | Some (a, b) => Some (substring (match_string m) a b)
         | None => None
         end)
  else inl (IndexError "no such group").

(** [Match.span(name)]: [(-1, -1)] for a group that took no part. *)
Definition Match_span (m : Match) (name : string) : exn + (Z * Z) :=
  if bool_decide (name ∈ match_names m) then
    inr (match capture_lookup name (match_groups m) with
         | Some (a, b) => (Z.of_nat a, Z.of_nat b)
         | None => ((-1)%Z, (-1)%Z)
         end)
  else inl (IndexError "no such group").

(** ** The project manifest *)

(** A value of the parsed [pyproject.toml]: strings, arrays, tables, and
    the remaining scalars (integers, floats, booleans, dates), of which
    the module only observes that they are neither strings nor
    containers. *)
Inductive toml : Type :=
| TStr (s : string)
| TScalar (z : Z)
| TList (l : list toml)
| TTable (kv : list (string * toml)).

Fixpoint table_get (k : string) (kv : list (string * toml)) : option toml :=
  match kv with
  | [] => None
  | (k', v) :: kv' => if String.eqb k' k then Some v else table_get k kv'
  end.

Definition Config : Type := toml.

(** Modelled from the spec: the manifest accessor of [config.py], which
    is not among the sources.  [get_pyproject_value] follows its key
    segments through nested tables and answers [None] as soon as a
    segment is missing. *)
Fixpoint get_pyproject_value (c : Config) (keys : list string) : option toml :=
  match keys with
  | [] => Some c
  | k :: keys' =>
      match c with
      | TTable kv =>
          match table_get k kv with
          | Some v => get_pyproject_value v keys'
          | None => None
          end
      | _ => None
      end
  end.

(** [v == s] for an optional manifest value and a string literal. *)
Definition eq_str (v : option toml) (s : string) : bool :=
  match v with
  | Some (TStr s') => String.eqb s' s
  | _ => false
  end.

(** [needle in hay] on Python strings. *)
Fixpoint str_contains (needle hay : string) : bool :=
  String.prefix needle hay ||
  match hay with
  | EmptyString => false
  | String _ hay' => str_contains needle hay'
  end.

(** [s in v] for a string literal [s]: membership in an array, the
    substring test on a string, the key test on a table, [TypeError] on
    the other scalars. *)
Definition contains_str (v : toml) (s : string) : exn + bool :=
  match v with
  | TList l => inr (existsb (fun x => eq_str (Some x) s) l)
  | TStr hay => inr (str_contains s hay)
  | TTable kv => inr (existsb (fun kx => String.eqb (fst kx) s) kv)
  | TScalar _ => inl (TypeError "argument is not iterable")
  end.

(** ** State and exceptions *)

Definition M (S A : Type) : Type := S -> (exn + A) * S.

Definition ret {S A} (a : A) : M S A := fun s => (inr a, s).

Definition raise {S A} (e : exn) : M S A := fun s => (inl e, s).

Definition bind {S A B} (m : M S A) (k : A -> M S B) : M S B :=
  fun s => match m s with
           | (inr a, s') => k a s'
           | (inl e, s') => (inl e, s')
           end.

Definition lift {S A} (r : exn + A) : M S A := fun s => (r, s).

Notation "'do' x <- m ; k" := (bind m (fun x => k))
  (at level 10, x name, m at level 100, k at level 200).
Notation "'do' ' pat <- m ; k" :=
  (bind m (fun x => match x with pat => k end))
  (at level 10, pat pattern, m at level 100, k at level 200).

(** [LOAD_GLOBAL name]: the binding of a bare name in the module's
    global namespace, [NameError] when there is none. *)
Definition load_global {S A} (name : string) (binding : option A) : M S A :=
  match binding with
  | Some f => ret f
  | None => raise (NameError name)
  end.

Section Dynamic.
(** [pathlib.Path] with its [/] and [str], and the [Version] class of
    [version.py] with its parser and formatter, are collaborators of
    the module. *)
Context {Path : Type} `{Countable Path}.
Variable path_div : Path -> string -> Path.
Variable path_str : Path -> string.
Context {Version : Type}.
Variable Version_from_string : text -> exn + Version.
Variable Pep440VersionFormatter_format : Version -> text.

(** The platform: its [os.name], and the code points for which the
    encoding that [open] uses without [encoding] (the one of the
    locale) has a code. *)
Variable os : os_name.
Variable encodable : char -> bool.

(** ** The world: the files and the record of file accesses *)

Inductive io_event : Type :=
| IoRead (p : Path)
| IoTruncate (p : Path)
| IoWrite (p : Path) (stored : text).

(** [disk] holds, for each file, the code points that its bytes
    decode to. *)
Record World : Type := mkWorld {
  disk : gmap Path text;
  trace : list io_event
}.

(** The text that a text-mode read delivers of each file. *)
Definition files (w : World) : gmap Path text := universal_newlines <$> disk w.

(** [with p.open("r") as f: f.read()] *)
Definition read_file {O} (p : Path) : M (O * World) text :=
  fun '(o, w) =>
    match files w !! p with
    | Some content =>
        (inr content, (o, mkWorld (disk w) (trace w ++ [IoRead p])))
    | None => (inl (FileNotFoundError (path_str p)), (o, w))
    end.

(** [with p.open("w") as f: f.write(content)]: [open] truncates the
    file; [write] translates the line feeds and encodes the text, and
    when that fails nothing has reached the file, which stays empty. *)
Definition write_file {O} (p : Path) (content : text) : M (O * World) unit :=
  fun '(o, w) =>
    let stored := write_translate os content in
    if forallb encodable stored then
      (inr tt, (o, mkWorld (<[p := stored]> (disk w))
                           (trace w ++ [IoTruncate p; IoWrite p stored])))
    else
      (inl (UnicodeEncodeError "character cannot be encoded"),
       (o, mkWorld (<[p := []]> (disk w)) (trace w ++ [IoTruncate p]))).

Definition get_self {O} : M (O * World) O := fun '(o, w) => (inr o, (o, w)).

Definition set_self {O} (o : O) : M (O * World) unit :=
  fun '(_, w) => (inr tt, (o, w)).

(** A method call on another object [d] from inside a method of
    [self]: the callee works on [d] and the shared world. *)
Definition call_on {O D A} (d : D) (m : M (D * World) A) : M (O * World) (A * D) :=
  fun '(self, w) =>
    match m (d, w) with
    | (inr a, (d', w')) => (inr (a, d'), (self, w'))
    | (inl e, (_, w')) => (inl e, (self, w'))
    end.

(** ** [class DynamicVersionConfig] *)

(** The two fields set by [__init__], and the instance slot in which
    [cached_property] stores the value of [dynamic_version] once it
    has been computed. *)
Record DynamicVersionConfig : Type := mkDynamicVersionConfig {
  file : Path;
  pattern : Pattern;
  dynamic_version_cached : option (option text)
}.

Definition DynamicVersionConfig_init (file_path : Path) (pattern : Pattern)
    : DynamicVersionConfig :=
  mkDynamicVersionConfig file_path pattern None.

Definition dynamic_version : M (DynamicVersionConfig * World) (option text) :=
  do self <- get_self;
  match dynamic_version_cached self with
  | Some value => ret value
  | None =>
      do content <- read_file (file self);
      do value <- match search (pattern self) content with
                  | Some m => lift (Match_group m "version")
                  | None => ret None
                  end;
      do _ <- set_self (mkDynamicVersionConfig (file self) (pattern self)
                                               (Some value));
      ret value
  end.

Definition replace_dynamic_version (new_version : text)
    : M (DynamicVersionConfig * World) unit :=
  do self <- get_self;
  do version_file <- read_file (file self);
  match search (pattern self) version_file with
  | None => raise (ValueError "Failed to fetch version")
  | Some m =>
      do '(version_start, version_end) <- lift (Match_span m "version");
      let new_version_file :=
        slice_to version_file version_start
        ++ new_version
        ++ slice_from version_file version_end in
      write_file (file self) new_version_file
  end.

(** [root_path / file_path] needs a string on the right. *)
Definition find_dynamic_config (root_path : Path) (project_config : Config)
    : exn + option DynamicVersionConfig :=
  if eq_str (get_pyproject_value project_config
               ["build-system"; "build-backend"]) "pdm.pep517.api"
     && eq_str (get_pyproject_value project_config
                  ["tool"; "pdm"; "version"; "source"]) "file"
  then
    match get_pyproject_value project_config
            ["tool"; "pdm"; "version"; "path"] with
    | Some (TStr file_path) =>
        inr (Some (DynamicVersionConfig_init (path_div root_path file_path)
                                             DEFAULT_REGEX))
    | _ => inl (TypeError "unsupported operand type(s) for /")
    end
  else inr None.

(** [dynamic.regex]: the class defines [file], [pattern],
    [dynamic_version], [replace_dynamic_version] and
    [find_dynamic_config], and no [regex]. *)
Definition DynamicVersionConfig_regex (d : DynamicVersionConfig) : exn + string :=
  inl (AttributeError "DynamicVersionConfig" "regex").

(** ** [class DynamicVersionSource] *)

Record DynamicVersionSource : Type := mkDynamicVersionSource {
  project_root : Path;
  config : Config;
  current_version : option Version
}.

Definition DynamicVersionSource_init (project_root : Path) (config : Config)
    : DynamicVersionSource :=
  mkDynamicVersionSource project_root config None.

(** The three bare names that the methods of [DynamicVersionSource]
    call.  Inside the class body a name with two leading underscores is
    compiled with the class prefix, and a bare name is looked up among
    the globals of the module when the call runs. *)
Record Globals : Type := mkGlobals {
  _DynamicVersionSource__find_dynamic_config :
    option (Path -> Config -> exn + option DynamicVersionConfig);
  _DynamicVersionSource__get_dynamic_version :
    option (M (DynamicVersionConfig * World) (option text));
  _DynamicVersionSource__replace_dynamic_version :
    option (text -> M (DynamicVersionConfig * World) unit)
}.

(** The module binds [DEFAULT_REGEX], the two classes and its imports:
    none of the three names. *)
Definition module_globals : Globals := mkGlobals None None None.

(** The namespace in which the three names stand for the members of
    [DynamicVersionConfig] that they are called after. *)
Definition member_globals : Globals :=
  mkGlobals (Some find_dynamic_config) (Some dynamic_version)
            (Some replace_dynamic_version).

Variable G : Globals.

Definition is_enabled : M (DynamicVersionSource * World) bool :=
  do self <- get_self;
  let dynamic_items := get_pyproject_value (config self) ["project"; "dynamic"] in
  match dynamic_items with
  | None => ret false
  | Some items => lift (contains_str items "version")
  end.

Definition __get_dynamic_version : M (DynamicVersionSource * World) DynamicVersionConfig :=
  do self <- get_self;
  do callee <- load_global "_DynamicVersionSource__find_dynamic_config"
                 (_DynamicVersionSource__find_dynamic_config G);
  do dynamic_version <- lift (callee (project_root self) (config self));
  match dynamic_version with
  | Some dynamic => ret dynamic
  | None =>
      raise (ValueError ("Failed to extract dynamic version from "
                         ++ path_str (project_root self)
                         ++ ". Only pdm-pep517 `file` types are supported."))
  end.

Definition __get_current_version : M (DynamicVersionSource * World) Version :=
  do self <- get_self;
  match current_version self with
  | Some version => ret version
  | None =>
      do dynamic <- __get_dynamic_version;
      do callee <- load_global "_DynamicVersionSource__get_dynamic_version"
                     (_DynamicVersionSource__get_dynamic_version G);
      do '(version, dynamic) <- call_on dynamic callee;
      match version with
      | Some version =>
          do parsed <- lift (Version_from_string version);
          do _ <- set_self (mkDynamicVersionSource (project_root self)
                              (config self) (Some parsed));
          ret parsed
      | None =>
          let file_name := path_str (file dynamic) in
          do regex_name <- lift (DynamicVersionConfig_regex dynamic);
          raise (ValueError ("Failed to find version in " ++ file_name
                             ++ ". Make sure it matches " ++ regex_name))
      end
  end.

Definition __set_current_version (version : Version)
    : M (DynamicVersionSource * World) unit :=
  do self <- get_self;
  set_self (mkDynamicVersionSource (project_root self) (config self)
                                   (Some version)).

Definition save_value : M (DynamicVersionSource * World) unit :=
  do self <- get_self;
  match current_version self with
  | None => raise (ValueError "No current value set")
  | Some version =>
      let ver := Pep440VersionFormatter_format version in
      do config <- __get_dynamic_version;
      do callee <- load_global "_DynamicVersionSource__replace_dynamic_version"
                     (_DynamicVersionSource__replace_dynamic_version G);
      do _ <- call_on config (callee ver);
      ret tt
  end.

End Dynamic.

(** ** [plugin.py]: [BumpCommand.handle] *)

(** The parsed command line: the positional [what], [--pre] and
    [--dry-run]. *)
Record Namespace : Type := mkNamespace {
  what : option string;
  pre : option string;
  dry_run : bool
}.

(** What [handle] uses of the project: the parsed manifest and the name
    of its file. *)
Record Project : Type := mkProject {
  pyproject : toml;
  pyproject_file : string
}.

(** What [handle] does to the outside: a message on the user interface,
    [Config.set_pyproject_value(value, *keys)], and
    [Project.write_pyproject(show_message)]. *)
Inductive plugin_event : Type :=
| Echo (msg : string)
| SetPyprojectValue (value : string) (keys : list string)
| WritePyproject (show_message : bool).

(** A block either runs into [return] or goes on with a value. *)
Inductive flow (A : Type) : Type :=
| Return
| Continue (a : A).
Arguments Return {A}.
Arguments Continue {A} a.

Definition emit (ev : plugin_event) : M (list plugin_event) unit :=
  fun evs => (inr tt, evs ++ [ev]).

Section Plugin.
(** The [Version] class of [pep440_version_utils] and the colours of
    [pdm.termui] are collaborators. *)
Context {V : Type}.
Variable Version_new : toml → exn + V.
Variables next_major next_minor next_micro : V → exn + V.
Variables next_alpha next_beta next_release_candidate : V → exn + V.
Variables Version_major Version_minor Version_micro : V → Z.
Variable Version_str : V → string.
Variable int_str : Z → string.
Variables red bold : string → string.

Definition log (msg : string) : M (list plugin_event) unit := emit (Echo msg).

(** The branches of [handle] that choose the next version. *)
Definition choose_next_version (options : Namespace) (version : V)
    : M (list plugin_event) (flow (option V)) :=
  match what options with
  | Some part =>
      if String.eqb "major" part then
        do next <- lift (next_major version); ret (Continue (Some next))
      else if String.eqb "minor" part then
        do next <- lift (next_minor version); ret (Continue (Some next))
      else if String.eqb "micro" part then
        do next <- lift (next_micro version); ret (Continue (Some next))
      else if String.eqb "pre-release" part then
        match pre options with
        | Some kind =>
            if String.eqb "alpha" kind then
              do next <- lift (next_alpha version); ret (Continue (Some next))
            else if String.eqb "beta" kind then
              do next <- lift (next_beta version); ret (Continue (Some next))
            else if existsb (String.eqb kind) ["rc"; "c"] then
              do next <- lift (next_release_candidate version);
              ret (Continue (Some next))
            else
              do _ <- log (red ("Invalid pre-release: " ++ kind
                     ++ ". Must be one of alpha, beta, rc or c"));
              ret Return
        | None =>
            do _ <- log (red "No pre-release kind set. Please provide one of the following values: alpha, beta, rc, c");
            ret Return
        end
      else if String.eqb "no-pre-release" part then
        do next <- lift (Version_new (TStr (int_str (Version_major version)
                           ++ "." ++ int_str (Version_minor version)
                           ++ "." ++ int_str (Version_micro version))));
        ret (Continue (Some next))
      else
        do _ <- log (red ("Invalid version part to bump: " ++ part
               ++ ". Must be one of major, minor, micro, pre-release or no-prerelease."));
        ret Return
  | None =>
      do _ <- log (red "No version part to bump set. Please provide on of the following values: major, minor, micro, pre-release or no-prerelease");
      ret Return
  end.

Definition handle (project : Project) (options : Namespace)
    : M (list plugin_event) unit :=
  let config := pyproject project in
  match get_pyproject_value config ["project"; "version"] with
  | None =>
      log (red ("Cannot find version in " ++ bold (pyproject_file project)))
  | Some version_value =>
      do version <- lift (Version_new version_value);
      do chosen <- choose_next_version options version;
      match chosen with
      | Return => ret tt
      | Continue next_version =>
          match next_version with
          | Some next =>
              do _ <- emit (SetPyprojectValue (Version_str next)
                                              ["project, version"]);
              emit (WritePyproject true)
          | None =>
              log (red "Failed to update version: No version set in pyproject.toml")
          end
      end
  end.
End Plugin.

Arguments get_pyproject_value : simpl never.
Arguments files : simpl never.

(** ** Notions used in the statements *)

(** A group that is bound on every path through the expression. *)
Fixpoint always_binds (name : string) (r : regex) : bool :=
  match r with
  | RSeq r1 r2 => always_binds name r1 || always_binds name r2
  | RGroup n r1 => String.eqb n name || always_binds name r1
  | _ => false
  end.

(** Every span of [caps] lies between [lo] and [hi]. *)
Definition spans_within (lo hi : nat) (caps : captures) : Prop :=
  Forall (fun c => lo ≤ c.2.1 ∧ c.2.1 ≤ c.2.2 ∧ c.2.2 ≤ hi) caps.

(** The version that a read through pattern [p] captures from
    [content]: the group [version] of the first match, [None] without a
    match. *)
Definition captured_version (p : Pattern) (content : text) : exn + option text :=
  match search p content with
  | Some m => Match_group m "version"
  | None => inr None
  end.

(** The line [__version__ = 1.2.3] with [opening] before and [closing]
    after the version. *)
Definition quoted_version_line (opening closing : char) : text :=
  text_of_string "__version__ = " ++ [opening] ++ text_of_string "1.2.3"
  ++ [closing].

(** A character of class [cc] at offset [p], and at every offset of
    [lo .. hi]. *)
Definition char_at (cc : cclass) (s : text) (p : nat) : Prop :=
  ∃ x, s !! p = Some x ∧ cclass_matches cc x = true.

Definition all_in (cc : cclass) (s : text) (lo hi : nat) : Prop :=
  ∀ p, lo ≤ p < hi → char_at cc s p.

Definition QUOTES : cclass := CSet [DQUOTE; SQUOTE].

Definition VERSION_NAME : text := text_of_string "__version__".

(** The pattern from the closing quote on. *)
Definition TAIL : regex :=
  RSeq (RChar QUOTES)
  (RSeq (RRepeat false 0 CSpace)
  (RSeq (ROpt (RSeq (RChar (CLit HASH)) (RRepeat false 0 CAny)))
        REol)).

(** What remains to be matched once the group [version] has taken the
    span [a .. b] of a match that started at [i]. *)
Definition tail_from (s : text) (i a b : nat) : option Match :=
  rmatch true s TAIL b [("version", (a, b))]
         (fun j caps => Some (mkMatch s i j caps ["version"])).

(** The line up to the opening quote: line start, the name, blanks up
    to the equals sign at [p2], blanks up to the quote at [p3]. *)
Definition PreShape (s : text) (i p2 p3 : nat) : Prop :=
  at_bol true s i = true ∧
  (∀ d, d < 11 → s !! (i + d) = VERSION_NAME !! d) ∧
  i + 11 ≤ p2 ∧ all_in CSpace s (i + 11) p2 ∧
  char_at (CLit EQUALS) s p2 ∧
  p2 + 1 ≤ p3 ∧ all_in CSpace s (p2 + 1) p3 ∧
  char_at QUOTES s p3.

(** The line from the closing quote at [b]: [d5] blanks, then either
    the end of the line or a comment, the match ending [dj] characters
    after the quote. *)
Definition TailShape (s : text) (b d5 dj : nat) : Prop :=
  char_at QUOTES s b ∧
  all_in CSpace s (b + 1) (b + 1 + d5) ∧
  (dj = d5 ∨
   (char_at (CLit HASH) s (b + 1 + d5) ∧ d5 + 1 ≤ dj ∧
    all_in CAny s (b + 1 + d5 + 1) (b + 1 + dj))) ∧
  at_eol true s (b + 1 + dj) = true.

(** Two texts with the same characters below offset [n]. *)
Definition agree_below (n : nat) (s s' : text) : Prop :=
  ∀ p, p < n → s !! p = s' !! p.

(** A non-empty text without line feed and without quote character:
    what the default pattern captures between two quotes of a line. *)
Definition quote_free (v : text) : Prop :=
  v ≠ [] ∧ Forall (fun x => x ≠ NEWLINE ∧ x ≠ DQUOTE ∧ x ≠ SQUOTE) v.

(** A version text that a read gives back as it was written: non-empty,
    on one line (neither line feed nor carriage return), without quote
    character. *)
Definition plain_version (v : text) : Prop :=
  v ≠ [] ∧
  Forall (fun x => x ≠ NEWLINE ∧ x ≠ CR ∧ x ≠ DQUOTE ∧ x ≠ SQUOTE) v.

(** The text can be written: once its line feeds are translated, the
    encoding has a code for each of its code points. *)
Definition can_encode (os : os_name) (encodable : char → bool) (t : text)
    : bool :=
  forallb encodable (write_translate os t).


(** The line [__version__ = v] with [opening] and [closing] around
    [v]. *)
Definition assignment_line (opening : char) (v : text) (closing : char) : text :=
  text_of_string "__version__ = " ++ [opening] ++ v ++ [closing].

(** ** A concrete project *)

(** Paths as strings, joined with a slash; versions as their text. *)
Definition example_div (root p : string) : string := root ++ "/" ++ p.
Definition example_str (p : string) : string := p.

Definition example_from_string (t : text) : exn + text :=
  if forallb (fun c => (48 <=? c)%N && (c <=? 57)%N || (c =? 46)%N) t
     && negb (Nat.eqb (length t) 0)
  then inr t else inl (InvalidVersion "not a version").

Definition example_format (v : text) : text := v.

Definition example_root : string := "proj".
Definition example_file : string := "proj/pkg/__init__.py".

(** [__version__ = "v"] on a line of its own. *)
Definition version_line (v : string) : text :=
  text_of_string "__version__ = " ++ [DQUOTE] ++ text_of_string v
  ++ [DQUOTE; NEWLINE].

(** UTF-8: every code point but the surrogates. *)
Definition example_encodable (c : char) : bool :=
  ((c <? 55296) || (57343 <? c) && (c <=? 1114111))%N.

Definition example_world (content : text) : @World string _ _ :=
  mkWorld {[ example_file := content ]} [].

(** A manifest with the given [project.dynamic] and build backend, and
    with the version source set to the file [pkg/__init__.py]. *)
Definition example_manifest (dynamic : toml) (backend : string) : Config :=
  TTable [("project", TTable [("name", TStr "demo"); ("dynamic", dynamic)]);
          ("build-system", TTable [("build-backend", TStr backend)]);
          ("tool", TTable [("pdm", TTable [("version",
             TTable [("source", TStr "file");
                     ("path", TStr "pkg/__init__.py")])])])].

Definition example_source (c : Config) : @DynamicVersionSource string text :=
  DynamicVersionSource_init example_root c.

Definition example_store : @DynamicVersionConfig string :=
  DynamicVersionConfig_init example_file DEFAULT_REGEX.

Definition example_match : Match :=
  mkMatch (version_line "1.2.3") 0 22 [("version", (15, 20))] ["version"].

(** ** Concrete collaborators for [handle] *)

(** Versions as triples of numbers, read from and printed as
    [major.minor.micro]. *)
Fixpoint parse_number (cs : text) (acc : nat) : option nat :=
  match cs with
  | [] => Some acc
  | c :: cs' =>
      if ((48 <=? c) && (c <=? 57))%N
      then parse_number cs' (10 * acc + N.to_nat (c - 48))
      else None
  end.

Fixpoint split_on (sep : char) (cs cur : text) : list text :=
  match cs with
  | [] => [reverse cur]
  | c :: cs' =>
      if (c =? sep)%N then reverse cur :: split_on sep cs' []
      else split_on sep cs' (c :: cur)
  end.

Definition example_Version_new (value : toml) : exn + (nat * nat * nat) :=
  match value with
  | TStr s =>
      match split_on 46%N (text_of_string s) [] with
      | [a; b; c] =>
          match a, b, c with
          | _ :: _, _ :: _, _ :: _ =>
              match parse_number a 0, parse_number b 0, parse_number c 0 with
              | Some x, Some y, Some z => inr (x, y, z)
              | _, _, _ => inl (InvalidVersion s)
              end
          | _, _, _ => inl (InvalidVersion s)
          end
      | _ => inl (InvalidVersion s)
      end
  | _ => inl (TypeError "expected string or bytes-like object")
  end.

Definition example_Version_str (v : nat * nat * nat) : string :=
  pretty v.1.1 ++ "." ++ pretty v.1.2 ++ "." ++ pretty v.2.

Definition example_next (part : nat) (v : nat * nat * nat)
    : exn + (nat * nat * nat) :=
  match part with
  | 0 => inr (S v.1.1, 0, 0)
  | 1 => inr (v.1.1, S v.1.2, 0)
  | _ => inr (v.1.1, v.1.2, S v.2)
  end.

Definition example_handle :=
  handle example_Version_new (example_next 0) (example_next 1) (example_next 2)
         (fun _ => inl (InvalidVersion "no pre-release in the example"))
         (fun _ => inl (InvalidVersion "no pre-release in the example"))
         (fun _ => inl (InvalidVersion "no pre-release in the example"))
         (fun v => Z.of_nat v.1.1) (fun v => Z.of_nat v.1.2)
         (fun v => Z.of_nat v.2)
         example_Version_str (fun z => pretty z) (fun s => s) (fun s => s).

Definition example_project : Project :=
  mkProject (TTable [("project", TTable [("name", TStr "demo");
                                         ("version", TStr "1.2.3")])])
            "pyproject.toml".


(** * Properties *)

(** ** The matcher *)

Lemma spans_within_weaken lo hi lo' hi' caps :
  lo' ≤ lo → hi ≤ hi' → spans_within lo hi caps → spans_within lo' hi' caps.
Proof.
  intros Hlo Hhi Hw. unfold spans_within. eapply Forall_impl; [exact Hw|].
  intros [n [a b]]; simpl. lia.
Qed.

Lemma capture_lookup_app name new caps sp :
  capture_lookup name new = Some sp →
  capture_lookup name (new ++ caps) = Some sp.
Proof.
  induction new as [|[n sp'] new IH]; simpl; [done|].
  destruct (String.eqb n name); auto.
Qed.

Lemma capture_lookup_within name lo hi caps a b :
  spans_within lo hi caps → capture_lookup name caps = Some (a, b) →
  lo ≤ a ∧ a ≤ b ∧ b ≤ hi.
Proof.
  induction 1 as [|[n [a' b']] caps Hc _ IH]; simpl; [done|].
  destruct (String.eqb n name); [|exact IH].
  intros [= -> ->]. exact Hc.
Qed.

Lemma run_length_le cc s : run_length cc s ≤ length s.
Proof.
  induction s as [|c s IH]; simpl; [lia|].
  destruct (cclass_matches cc c); simpl; lia.
Qed.

Lemma try_down_inv {R} (k : nat → option R) base n res :
  try_down k base n = Some res → ∃ j, base ≤ j ≤ base + n ∧ k j = Some res.
Proof.
  induction n as [|n IH]; simpl; destruct (k (base + _)) eqn:Hk.
  - intros [= ->]. exists (base + 0). split; [lia|done].
  - done.
  - intros [= ->]. exists (base + S n). split; [lia|done].
  - intros Hn. destruct (IH Hn) as (j & Hj & Hres). exists j. split; [lia|done].
Qed.

Lemma try_up_inv {R} (k : nat → option R) pos n res :
  try_up k pos n = Some res → ∃ j, pos ≤ j ≤ pos + n ∧ k j = Some res.
Proof.
  revert pos. induction n as [|n IH]; intros pos; simpl; destruct (k pos) eqn:Hk.
  - intros [= ->]. exists pos. split; [lia|done].
  - done.
  - intros [= ->]. exists pos. split; [lia|done].
  - intros Hn. destruct (IH _ Hn) as (j & Hj & Hres). exists j. split; [lia|done].
Qed.

(** Closes the side conditions of a step that binds no group. *)
Local Ltac no_capture :=
  repeat split; try lia; try done; try (by constructor).

(** What a successful run of the matcher tells: the continuation was
    entered at an offset [j] not before [i] and inside the subject, with
    the captures extended by spans inside [i .. j], among them every
    group that the expression always binds. *)
Lemma rmatch_inv {R} multiline s r :
  ∀ i caps (k : nat → captures → option R) res,
    i ≤ length s →
    rmatch multiline s r i caps k = Some res →
    ∃ j new,
      i ≤ j ≤ length s ∧ k j (new ++ caps) = Some res ∧
      spans_within i j new ∧
      ∀ name, always_binds name r = true → is_Some (capture_lookup name new).
Proof.
  induction r as [|cc| | |r1 IH1 r2 IH2|r1 IH1|lazy min cc|n r1 IH1];
    intros i caps k res Hi; simpl.
  - intros Hk. exists i, []. no_capture.
  - destruct (s !! i) as [c|] eqn:Hc; [|done].
    destruct (cclass_matches cc c); [|done]. intros Hk.
    apply lookup_lt_Some in Hc.
    exists (S i), []. no_capture.
  - destruct (at_bol multiline s i); [|done]. intros Hk.
    exists i, []. no_capture.
  - destruct (at_eol multiline s i); [|done]. intros Hk.
    exists i, []. no_capture.
  - intros Hm.
    destruct (IH1 _ _ _ _ Hi Hm) as (j1 & new1 & Hj1 & Hk1 & Hw1 & Hb1).
    destruct (IH2 _ _ _ _ (proj2 Hj1) Hk1) as (j2 & new2 & Hj2 & Hk2 & Hw2 & Hb2).
    exists j2, (new2 ++ new1). split; [lia|]. split; [by rewrite <- app_assoc|].
    split.
    + apply Forall_app. split.
      * eapply spans_within_weaken; [| |exact Hw2]; lia.
      * eapply spans_within_weaken; [| |exact Hw1]; lia.
    + intros name Hname. apply orb_true_iff in Hname.
      destruct (always_binds name r2) eqn:E2.
      * destruct (Hb2 name E2) as [sp Hsp]. exists sp.
        by apply capture_lookup_app.
      * destruct Hname as [Hname|Hname]; [|done].
        destruct (Hb1 name Hname) as [sp Hsp].
        destruct (capture_lookup name new2) as [sp2|] eqn:E.
        -- exists sp2. by apply capture_lookup_app.
        -- exists sp. clear -E Hsp. induction new2 as [|[n' sp'] new2 IH]; simpl in *; [done|].
           destruct (String.eqb n' name); [done|]. by apply IH.
  - destruct (rmatch multiline s r1 i caps k) as [res'|] eqn:Hm.
    + intros [= ->].
      destruct (IH1 _ _ _ _ Hi Hm) as (j & new & Hj & Hk & Hw & _).
      exists j, new. repeat split; try lia; try done.
    + intros Hk. exists i, []. no_capture.
  - pose proof (run_length_le cc (drop i s)) as Hrun.
    rewrite length_drop in Hrun.
    destruct (Nat.ltb_spec (run_length cc (drop i s)) min) as [|Hmin]; [done|].
    destruct lazy; intros Hm;
      [apply try_up_inv in Hm|apply try_down_inv in Hm];
      destruct Hm as (j & Hj & Hk); exists j, [];
      no_capture.
  - intros Hm.
    destruct (IH1 _ _ _ _ Hi Hm) as (j & new & Hj & Hk & Hw & Hb).
    exists j, ((n, (i, j)) :: new). split; [lia|]. split; [done|]. split.
    + constructor; [simpl; lia|done].
    + intros name Hname. simpl.
      destruct (String.eqb n name); [by eexists|]. by apply Hb.
Qed.

Lemma always_binds_group_names name r :
  always_binds name r = true → name ∈ group_names r.
Proof.
  induction r as [|cc| | |r1 IH1 r2 IH2|r1 IH1|lazy min cc|n r1 IH1]; simpl;
    try done.
  - intros [H1|H2]%orb_true_iff; apply elem_of_app; auto.
  - intros [Hn|H1]%orb_true_iff.
    + apply String.eqb_eq in Hn as ->. left.
    + right. auto.
Qed.

Lemma match_at_inv p s i m :
  i ≤ length s → match_at p s i = Some m →
  ∃ j caps,
    m = mkMatch s i j caps (group_names (pattern_regex p)) ∧
    i ≤ j ≤ length s ∧ spans_within i j caps ∧
    ∀ name, always_binds name (pattern_regex p) = true →
            is_Some (capture_lookup name caps).
Proof.
  intros Hi Hm. unfold match_at in Hm.
  destruct (rmatch_inv _ _ _ _ _ _ _ Hi Hm) as (j & new & Hj & Hk & Hw & Hb).
  rewrite app_nil_r in Hk. injection Hk as <-. by exists j, new.
Qed.

Lemma search_from_inv p s i n m :
  search_from p s i n = Some m →
  ∃ i', i ≤ i' ≤ i + n ∧ match_at p s i' = Some m.
Proof.
  revert i. induction n as [|n IH]; intros i; simpl;
    destruct (match_at p s i) eqn:Hm.
  - intros [= ->]. exists i. split; [lia|done].
  - done.
  - intros [= ->]. exists i. split; [lia|done].
  - intros Hn. destruct (IH _ Hn) as (i' & Hi' & Hm'). exists i'. split; [lia|done].
Qed.

(** A match found by [search] is a match of the subject, and a group
    that the pattern always binds has a span inside the subject. *)
Lemma search_group_span p s m name :
  search p s = Some m →
  always_binds name (pattern_regex p) = true →
  ∃ a b,
    a ≤ b ≤ length s ∧
    Match_span m name = inr (Z.of_nat a, Z.of_nat b) ∧
    Match_group m name = inr (Some (substring s a b)).
Proof.
  intros Hs Hname. apply search_from_inv in Hs as (i & Hi & Hm).
  apply match_at_inv in Hm as (j & caps & -> & Hj & Hw & Hb); [|lia].
  destruct (Hb name Hname) as [[a b] Hab].
  destruct (capture_lookup_within _ _ _ _ _ _ Hw Hab) as (? & ? & ?).
  exists a, b. unfold Match_span, Match_group; simpl.
  rewrite bool_decide_eq_true_2 by by apply always_binds_group_names.
  rewrite Hab. split; [lia|done].
Qed.

Lemma slice_to_nat (s : text) (a : nat) : slice_to s (Z.of_nat a) = take a s.
Proof.
  unfold slice_to. destruct (Z.ltb_spec (Z.of_nat a) 0); [lia|].
  by rewrite Nat2Z.id.
Qed.

Lemma slice_from_nat (s : text) (b : nat) : slice_from s (Z.of_nat b) = drop b s.
Proof.
  unfold slice_from. destruct (Z.ltb_spec (Z.of_nat b) 0); [lia|].
  by rewrite Nat2Z.id.
Qed.


(** The characters before and after a replaced span keep their place
    relative to the span. *)
Lemma splice_outside (s v : text) (a b : nat) :
  a ≤ b ≤ length s →
  let s' := slice_to s (Z.of_nat a) ++ v ++ slice_from s (Z.of_nat b) in
  (∀ i, i < a → s' !! i = s !! i) ∧
  (∀ i, s' !! (a + length v + i) = s !! (b + i)).
Proof.
  intros Hab s'. subst s'. rewrite slice_to_nat, slice_from_nat. split.
  - intros i Hi. rewrite lookup_app_l by (rewrite length_take; lia).
    by apply lookup_take_lt.
  - intros i.
    rewrite lookup_app_r by (rewrite length_take; lia).
    rewrite length_take, Nat.min_l by lia.
    rewrite lookup_app_r by lia.
    rewrite lookup_drop. f_equal. lia.
Qed.

(** ** Newlines and encoding *)

Lemma translate_newlines_no_CR after_cr (s : text) :
  CR ∉ translate_newlines after_cr s.
Proof.
  revert after_cr. induction s as [|c s IH]; intros after_cr; simpl.
  - apply not_elem_of_nil.
  - destruct (N.eqb_spec c CR) as [->|Hc].
    + apply not_elem_of_cons. split; [by vm_compute|apply IH].
    + destruct ((c =? NEWLINE)%N && after_cr); [apply IH|].
      apply not_elem_of_cons. split; [congruence|apply IH].
Qed.

(** A read delivers no carriage return. *)
Lemma universal_newlines_no_CR (s : text) : CR ∉ universal_newlines s.
Proof. apply translate_newlines_no_CR. Qed.

(** A text without carriage return is delivered as it is. *)
Lemma universal_newlines_id (s : text) : CR ∉ s → universal_newlines s = s.
Proof.
  unfold universal_newlines. induction s as [|c s IH]; simpl; intros Hs; [done|].
  apply not_elem_of_cons in Hs as [Hc Hs].
  destruct (N.eqb_spec c CR) as [->|_]; [done|].
  rewrite andb_false_r. f_equal. by apply IH.
Qed.

Lemma write_translate_posix (s : text) : write_translate posix s = s.
Proof.
  unfold write_translate. induction s as [|c s IH]; simpl; [done|].
  destruct (N.eqb_spec c NEWLINE) as [->|_]; simpl; by f_equal.
Qed.

Lemma write_translate_app os (s t : text) :
  write_translate os (s ++ t) = write_translate os s ++ write_translate os t.
Proof. apply flat_map_app. Qed.

(** A text without carriage return is read back as it was written,
    whatever the line separator of the platform. *)
Lemma read_back os (s : text) :
  CR ∉ s → universal_newlines (write_translate os s) = s.
Proof.
  unfold universal_newlines, write_translate.
  induction s as [|c s IH]; simpl; intros Hs; [done|].
  apply not_elem_of_cons in Hs as [Hc Hs]. specialize (IH Hs).
  destruct (N.eqb_spec c NEWLINE) as [->|Hn].
  - destruct os; simpl; f_equal; exact IH.
  - simpl. destruct (N.eqb_spec c CR) as [->|_]; [done|].
    destruct (N.eqb_spec c NEWLINE) as [->|_]; [done|]. simpl.
    f_equal; exact IH.
Qed.

Lemma can_encode_app os encodable (s t : text) :
  can_encode os encodable (s ++ t)
  = can_encode os encodable s && can_encode os encodable t.
Proof. unfold can_encode. by rewrite write_translate_app, forallb_app. Qed.

Lemma can_encode_take os encodable n (s : text) :
  can_encode os encodable s = true → can_encode os encodable (take n s) = true.
Proof.
  rewrite <- (take_drop n s) at 1. rewrite can_encode_app.
  by intros [? _]%andb_true_iff.
Qed.

Lemma can_encode_drop os encodable n (s : text) :
  can_encode os encodable s = true → can_encode os encodable (drop n s) = true.
Proof.
  rewrite <- (take_drop n s) at 1. rewrite can_encode_app.
  by intros [_ ?]%andb_true_iff.
Qed.

(** A text that can be encoded still can after one of its spans has
    been replaced by a text that can. *)
Lemma can_encode_splice os encodable (s v : text) (a b : Z) :
  can_encode os encodable s = true → can_encode os encodable v = true →
  can_encode os encodable (slice_to s a ++ v ++ slice_from s b) = true.
Proof.
  intros Hs Hv. rewrite !can_encode_app, Hv. unfold slice_to, slice_from.
  destruct (a <? 0)%Z, (b <? 0)%Z;
    by rewrite can_encode_take, can_encode_drop.
Qed.

Lemma splice_no_CR (s v : text) (a b : nat) :
  CR ∉ s → CR ∉ v → CR ∉ take a s ++ v ++ drop b s.
Proof.
  intros Hs Hv. rewrite !not_elem_of_app. split; [|split; [done|]].
  - rewrite <- (take_drop a s) in Hs. by apply not_elem_of_app in Hs as [? _].
  - rewrite <- (take_drop b s) in Hs. by apply not_elem_of_app in Hs as [_ ?].
Qed.

Lemma plain_version_quote_free (v : text) : plain_version v → quote_free v.
Proof.
  intros [Hne Hall]. split; [done|]. eapply Forall_impl; [exact Hall|].
  simpl. tauto.
Qed.

Lemma plain_version_no_CR (v : text) : plain_version v → CR ∉ v.
Proof.
  intros [_ Hall] Hin. rewrite Forall_forall in Hall.
  destruct (Hall _ Hin) as (_ & Hcr & _). done.
Qed.

(** ** [DynamicVersionConfig] *)

Section StoreProperties.
Context {Path : Type} `{Countable Path}.
Variable path_str : Path → string.
Variable os : os_name.
Variable encodable : char → bool.

Local Ltac run :=
  unfold dynamic_version, replace_dynamic_version, bind, get_self, set_self,
    read_file, write_file, lift, ret, raise; simpl.

(** A read on a store whose slot is empty reads the file once and
    fills the slot. *)
Lemma dynamic_version_first_read (d : DynamicVersionConfig) (w : World)
    content v :
  dynamic_version_cached d = None →
  files w !! file d = Some content →
  captured_version (pattern d) content = inr v →
  dynamic_version path_str (d, w) =
    (inr v, (mkDynamicVersionConfig (file d) (pattern d) (Some v),
             mkWorld (disk w) (trace w ++ [IoRead (file d)]))).
Proof.
  intros Hc Hf Hv. run. rewrite Hc, Hf. unfold captured_version in Hv.
  destruct (search (pattern d) content) as [m|]; simpl.
  - by rewrite Hv.
  - by injection Hv as <-.
Qed.

(** A read on a store whose slot is filled answers from the slot. *)
Lemma dynamic_version_cached_read (d : DynamicVersionConfig) (w : World) v :
  dynamic_version_cached d = Some v →
  dynamic_version path_str (d, w) = (inr v, (d, w)).
Proof. intros Hc. run. by rewrite Hc. Qed.

(** What a read delivers holds no carriage return. *)
Lemma files_no_CR (w : World) (p : Path) content :
  files w !! p = Some content → CR ∉ content.
Proof.
  unfold files. rewrite lookup_fmap.
  destruct (disk w !! p) as [raw|]; simpl; [|done].
  intros [= <-]. apply universal_newlines_no_CR.
Qed.

Lemma files_disk (w : World) (p : Path) raw :
  disk w !! p = Some raw → files w !! p = Some (universal_newlines raw).
Proof. intros Hd. unfold files. by rewrite lookup_fmap, Hd. Qed.

(** A write on a file with a match whose group [version] has the span
    [a .. b] replaces exactly that span, when the new text can be
    encoded. *)
Lemma replace_dynamic_version_splice (d : DynamicVersionConfig) (w : World)
    content m (a b : Z) new_version :
  files w !! file d = Some content →
  search (pattern d) content = Some m →
  Match_span m "version" = inr (a, b) →
  can_encode os encodable
    (slice_to content a ++ new_version ++ slice_from content b) = true →
  replace_dynamic_version path_str os encodable new_version (d, w) =
    (inr tt,
     (d, let stored := write_translate os
                         (slice_to content a ++ new_version
                          ++ slice_from content b) in
         mkWorld (<[file d := stored]> (disk w))
                 (trace w ++ [IoRead (file d)]
                          ++ [IoTruncate (file d); IoWrite (file d) stored]))).
Proof.
  intros Hf Hs Hsp He. run. rewrite Hf; simpl. rewrite Hs, Hsp; simpl.
  unfold can_encode in He. rewrite He. by rewrite <- app_assoc.
Qed.

(** When the new text cannot be encoded, the write raises after [open]
    has truncated the file. *)
Lemma replace_dynamic_version_encode_error (d : DynamicVersionConfig)
    (w : World) content m (a b : Z) new_version :
  files w !! file d = Some content →
  search (pattern d) content = Some m →
  Match_span m "version" = inr (a, b) →
  can_encode os encodable
    (slice_to content a ++ new_version ++ slice_from content b) = false →
  replace_dynamic_version path_str os encodable new_version (d, w) =
    (inl (UnicodeEncodeError "character cannot be encoded"),
     (d, mkWorld (<[file d := []]> (disk w))
                 (trace w ++ [IoRead (file d)] ++ [IoTruncate (file d)]))).
Proof.
  intros Hf Hs Hsp He. run. rewrite Hf; simpl. rewrite Hs, Hsp; simpl.
  unfold can_encode in He. rewrite He. by rewrite <- app_assoc.
Qed.

(** What the files deliver after a write. *)
Lemma files_after_write (w : World) (p : Path) (stored : text) t :
  files (mkWorld (<[p := stored]> (disk w)) t)
  = <[p := universal_newlines stored]> (files w).
Proof. unfold files; simpl. apply fmap_insert. Qed.


(** C3, as amended.  The first read on a store reads the file and
    returns the version captured from its present content; the store
    keeps that answer next to its path and pattern, and every later
    read on the same store returns it without reading the file,
    whatever the file holds by then. *)
Theorem dynamic_version_read_once (d : DynamicVersionConfig) (w : World)
    content v :
  dynamic_version_cached d = None →
  files w !! file d = Some content →
  captured_version (pattern d) content = inr v →
  ∃ d',
    dynamic_version path_str (d, w) =
      (inr v, (d', mkWorld (disk w) (trace w ++ [IoRead (file d)]))) ∧
    file d' = file d ∧ pattern d' = pattern d ∧
    dynamic_version_cached d' = Some v ∧
    ∀ w2 : World, dynamic_version path_str (d', w2) = (inr v, (d', w2)).
Proof.
  intros Hc Hf Hv. eexists. split.
  - by apply dynamic_version_first_read with (content := content).
  - split; [done|]. split; [done|]. split; [done|].
    intros w2. by apply dynamic_version_cached_read.
Qed.


(** C10.  The default pattern does not ask the closing quote to be the
    opening one: whichever of the two quote characters opens and
    whichever closes, the read of a file that holds the line returns
    the text between them; so it does for an opening double quote with
    a closing single quote. *)
Theorem default_pattern_mismatched_quotes (w : World) (f : Path)
    (opening closing : char) :
  opening ∈ [DQUOTE; SQUOTE] →
  closing ∈ [DQUOTE; SQUOTE] →
  files w !! f = Some (quoted_version_line opening closing) →
  ∃ d' w',
    dynamic_version path_str (DynamicVersionConfig_init f DEFAULT_REGEX, w)
    = (inr (Some (text_of_string "1.2.3")), (d', w')).
Proof.
  intros Ho Hc Hf. eexists _, _.
  apply dynamic_version_first_read
    with (content := quoted_version_line opening closing); [done|done|].
  repeat (apply elem_of_cons in Ho as [->|Ho]; [|]);
    [| |by apply elem_of_nil in Ho];
    (repeat (apply elem_of_cons in Hc as [->|Hc]; [|]);
     [| |by apply elem_of_nil in Hc]); by vm_compute.
Qed.
End StoreProperties.

(** ** [DynamicVersionSource] *)

Section ResolverProperties.
Context {Path : Type} `{Countable Path}.
Variable path_div : Path → string → Path.
Variable path_str : Path → string.
Variable os : os_name.
Variable encodable : char → bool.
Context {Version : Type}.
Variable Version_from_string : text → exn + Version.
Variable Pep440VersionFormatter_format : Version → text.

Local Abbreviation Source := (@DynamicVersionSource Path Version).

Local Ltac run :=
  unfold __get_current_version, __get_dynamic_version, __set_current_version,
    save_value, is_enabled, bind, get_self, set_self, load_global, call_on,
    lift, ret, raise; simpl.

(** The gate of [find_dynamic_config]: a descriptor comes out exactly
    when the backend and the source have the two expected values and
    the configured path is a string; the descriptor then points at the
    path under the project root and carries the default pattern. *)
Lemma find_dynamic_config_gate (root : Path) (c : Config) d :
  find_dynamic_config path_div root c = inr (Some d) ↔
  get_pyproject_value c ["build-system"; "build-backend"]
    = Some (TStr "pdm.pep517.api") ∧
  get_pyproject_value c ["tool"; "pdm"; "version"; "source"]
    = Some (TStr "file") ∧
  ∃ p, get_pyproject_value c ["tool"; "pdm"; "version"; "path"]
         = Some (TStr p) ∧
       d = DynamicVersionConfig_init (path_div root p) DEFAULT_REGEX.
Proof.
  unfold find_dynamic_config.
  generalize (get_pyproject_value c ["build-system"; "build-backend"]),
    (get_pyproject_value c ["tool"; "pdm"; "version"; "source"]),
    (get_pyproject_value c ["tool"; "pdm"; "version"; "path"]).
  intros backend source path. split.
  - destruct backend as [[s1| | |]|]; simpl; try done.
    destruct (String.eqb_spec s1 "pdm.pep517.api") as [->|]; simpl; [|done].
    destruct source as [[s2| | |]|]; simpl; try done.
    destruct (String.eqb_spec s2 "file") as [->|]; simpl; [|done].
    destruct path as [[p| | |]|]; try done.
    intros [= <-]. eauto.
  - intros (-> & -> & p & -> & ->). done.
Qed.

(** Without the two expected values there is no descriptor. *)
Lemma find_dynamic_config_none (root : Path) (c : Config) :
  eq_str (get_pyproject_value c ["build-system"; "build-backend"])
         "pdm.pep517.api"
  && eq_str (get_pyproject_value c ["tool"; "pdm"; "version"; "source"])
            "file" = false →
  find_dynamic_config path_div root c = inr None.
Proof. intros Hg. unfold find_dynamic_config. by rewrite Hg. Qed.

(** *** The module as it is written *)

(** The call of the bare name [__find_dynamic_config] fails before
    anything else happens. *)
Lemma get_dynamic_version_NameError (r : Source) (w : World) :
  __get_dynamic_version path_str module_globals (r, w) =
    (inl (NameError "_DynamicVersionSource__find_dynamic_config"), (r, w)).
Proof. done. Qed.

Lemma get_current_version_unresolved_NameError (r : Source) (w : World) :
  current_version r = None →
  __get_current_version path_str Version_from_string module_globals (r, w) =
    (inl (NameError "_DynamicVersionSource__find_dynamic_config"), (r, w)).
Proof. intros Hr. run. by rewrite Hr. Qed.

Lemma save_value_resolved_NameError (r : Source) (w : World) v :
  current_version r = Some v →
  save_value path_str Pep440VersionFormatter_format module_globals (r, w) =
    (inl (NameError "_DynamicVersionSource__find_dynamic_config"), (r, w)).
Proof. intros Hr. run. by rewrite Hr. Qed.

(** *** With the three names bound to the members they are called after *)

Local Abbreviation members := (member_globals path_div path_str os encodable).

Lemma get_current_version_members_reads (r : Source) (w : World)
    d content text_version version :
  current_version r = None →
  find_dynamic_config path_div (project_root r) (config r) = inr (Some d) →
  files w !! file d = Some content →
  captured_version DEFAULT_REGEX content = inr (Some text_version) →
  Version_from_string text_version = inr version →
  __get_current_version path_str Version_from_string members (r, w) =
    (inr version,
     (mkDynamicVersionSource (project_root r) (config r) (Some version),
      mkWorld (disk w) (trace w ++ [IoRead (file d)]))).
Proof.
  intros Hr Hd Hf Hv Hp.
  apply find_dynamic_config_gate in Hd as Hd'.
  destruct Hd' as (_ & _ & p & _ & ->).
  run. rewrite Hr; simpl. rewrite Hd; simpl.
  rewrite (dynamic_version_first_read path_str _ w content (Some text_version));
    [|done|done|done].
  simpl. by rewrite Hp.
Qed.

Lemma get_current_version_members_no_match (r : Source) (w : World)
    d content :
  current_version r = None →
  find_dynamic_config path_div (project_root r) (config r) = inr (Some d) →
  files w !! file d = Some content →
  search DEFAULT_REGEX content = None →
  __get_current_version path_str Version_from_string members (r, w) =
    (inl (AttributeError "DynamicVersionConfig" "regex"),
     (r, mkWorld (disk w) (trace w ++ [IoRead (file d)]))).
Proof.
  intros Hr Hd Hf Hs.
  apply find_dynamic_config_gate in Hd as Hd'.
  destruct Hd' as (_ & _ & p & _ & ->).
  run. rewrite Hr; simpl. rewrite Hd; simpl.
  rewrite (dynamic_version_first_read path_str _ w content None);
    [done|done|done|].
  unfold captured_version. simpl. by rewrite Hs.
Qed.

Lemma get_current_version_members_no_descriptor (r : Source) (w : World) :
  current_version r = None →
  find_dynamic_config path_div (project_root r) (config r) = inr None →
  __get_current_version path_str Version_from_string members (r, w) =
    (inl (ValueError ("Failed to extract dynamic version from "
                      ++ path_str (project_root r)
                      ++ ". Only pdm-pep517 `file` types are supported.")),
     (r, w)).
Proof. intros Hr Hd. run. rewrite Hr; simpl. by rewrite Hd. Qed.

(** *** Whatever the three names are bound to *)

Variable G : @Globals Path _ _.

Lemma set_current_version_resolves (r : Source) (w : World) v :
  __set_current_version v (r, w) =
    (inr tt, (mkDynamicVersionSource (project_root r) (config r) (Some v), w)).
Proof. done. Qed.

Lemma get_current_version_resolves (r r1 : Source) (w w1 : World) v :
  __get_current_version path_str Version_from_string G (r, w)
    = (inr v, (r1, w1)) →
  current_version r1 = Some v.
Proof.
  run. destruct (current_version r) as [v0|] eqn:Hr.
  - by intros [= <- <- <-].
  - destruct (_DynamicVersionSource__find_dynamic_config G) as [f|];
      simpl; [|done].
    destruct (f (project_root r) (config r)) as [e|[d|]]; simpl; try done.
    destruct (_DynamicVersionSource__get_dynamic_version G) as [g|];
      simpl; [|done].
    destruct (g (d, w)) as [[e|[t|]] [d' w']]; simpl; try done.
    destruct (Version_from_string t) as [e|v']; simpl; [done|].
    by intros [= <- <- <-].
Qed.

(** C7.  Once a read through the resolver has succeeded or a version
    has been set, the resolver holds that version, and a following
    read returns it in any world, leaving the resolver and the world
    (its files and its record of file accesses) as they are: the file
    is not read, and a change made to it in between is not seen. *)
Theorem get_current_version_cached (r r1 : Source) (w w1 : World) v :
  __get_current_version path_str Version_from_string G (r, w)
    = (inr v, (r1, w1))
  ∨ __set_current_version v (r, w) = (inr tt, (r1, w1)) →
  current_version r1 = Some v ∧
  ∀ w2 : World,
    __get_current_version path_str Version_from_string G (r1, w2)
    = (inr v, (r1, w2)).
Proof.
  intros Hprev.
  assert (current_version r1 = Some v) as Hr1.
  { destruct Hprev as [Hget|Hset].
    - by eapply get_current_version_resolves.
    - rewrite set_current_version_resolves in Hset.
      by injection Hset as <- _. }
  split; [done|]. intros w2. run. by rewrite Hr1.
Qed.

(** C9.  On a resolver that holds no version, as a newly constructed
    one does, [save_value] raises the [ValueError] of the missing
    value (the specification's PreconditionError) and leaves the
    resolver and the world as they are: no file is read or written. *)
Theorem save_value_unresolved (r : Source) (w : World) :
  current_version r = None →
  save_value path_str Pep440VersionFormatter_format G (r, w) =
    (inl (ValueError "No current value set"), (r, w)).
Proof. intros Hr. run. by rewrite Hr. Qed.

(** C8, as amended.  [is_enabled] never touches the resolver or the
    world; and when the manifest value at [project.dynamic] is absent
    or an array, it answers, and answers [true] exactly when the array
    is there and holds the string [version]. *)
Theorem is_enabled_array_gate (r : Source) (w : World) :
  (is_enabled (r, w)).2 = (r, w) ∧
  (get_pyproject_value (config r) ["project"; "dynamic"] = None
   ∨ (∃ l, get_pyproject_value (config r) ["project"; "dynamic"]
           = Some (TList l)) →
   ∃ b : bool,
     (is_enabled (r, w)).1 = inr b ∧
     (b = true ↔
      ∃ l, get_pyproject_value (config r) ["project"; "dynamic"]
             = Some (TList l) ∧ TStr "version" ∈ l)).
Proof.
  run. destruct (get_pyproject_value (config r) ["project"; "dynamic"])
    as [v|]; simpl.
  - split; [done|]. intros [[=]|[l [= ->]]]. simpl. eexists. split; [done|].
    rewrite existsb_exists. split.
    + intros (x & Hx & Heq). exists l. split; [done|].
      destruct x as [s| | |]; simpl in Heq; try done.
      apply String.eqb_eq in Heq as ->. by apply list_elem_of_In.
    + intros (l' & [= <-] & Hin). exists (TStr "version").
      split; [by apply list_elem_of_In|done].
  - split; [done|]. intros _. exists false. split; [done|].
    split; [done|]. by intros (l & [=] & _).
Qed.
End ResolverProperties.

(** * The concrete project *)

Example example_match_found :
  search DEFAULT_REGEX (version_line "1.2.3") = Some example_match.
Proof. by vm_compute. Qed.

Example example_lookup content :
  files (example_world content) !! example_file
  = Some (universal_newlines content).
Proof. apply files_disk, lookup_singleton_eq. Qed.

(** The specification's span example: quotes and comment are kept. *)
Example span_precision :
  let before := text_of_string "__version__ = " ++ [DQUOTE]
                ++ text_of_string "1.2.3" ++ [DQUOTE]
                ++ text_of_string "  # comment" in
  let after := text_of_string "__version__ = " ++ [DQUOTE]
               ++ text_of_string "9.9.9" ++ [DQUOTE]
               ++ text_of_string "  # comment" in
  ∃ w',
    replace_dynamic_version example_str posix example_encodable
      (text_of_string "9.9.9")
      (example_store, example_world before) = (inr tt, (example_store, w')) ∧
    files w' !! example_file = Some after.
Proof. eexists. split; by vm_compute. Qed.

(** ** The resolver of the module on concrete projects *)

(** C2.  A project that meets every premise of the read (the manifest
    gives a descriptor, the file holds a match, its text parses), on
    which the resolver of the module nevertheless raises [NameError]
    and caches nothing. *)
Example get_current_version_fails_on_valid_project :
  let c := example_manifest (TList [TStr "version"]) "pdm.pep517.api" in
  let r := example_source c in
  let w := example_world (version_line "1.2.3") in
  find_dynamic_config example_div example_root c = inr (Some example_store) ∧
  files w !! file example_store = Some (version_line "1.2.3") ∧
  captured_version DEFAULT_REGEX (version_line "1.2.3")
    = inr (Some (text_of_string "1.2.3")) ∧
  example_from_string (text_of_string "1.2.3") = inr (text_of_string "1.2.3") ∧
  current_version r = None ∧
  __get_current_version example_str example_from_string module_globals (r, w)
    = (inl (NameError "_DynamicVersionSource__find_dynamic_config"), (r, w)).
Proof. repeat split; by vm_compute. Qed.

(** The same project read with the three names bound to the members:
    the version is parsed, cached and returned. *)
Example get_current_version_members_on_valid_project :
  let c := example_manifest (TList [TStr "version"]) "pdm.pep517.api" in
  let w := example_world (version_line "1.2.3") in
  __get_current_version example_str example_from_string
    (member_globals example_div example_str posix example_encodable)
    (example_source c, w)
  = (inr (text_of_string "1.2.3"),
     (mkDynamicVersionSource example_root c (Some (text_of_string "1.2.3")),
      mkWorld (disk w) [IoRead example_file])).
Proof.
  intros c w.
  apply (get_current_version_members_reads example_div example_str posix
           example_encodable
           example_from_string (example_source c) w example_store
           (version_line "1.2.3") (text_of_string "1.2.3"));
    by vm_compute.
Qed.

(** C5.  A project whose file holds no match: the resolver of the
    module raises [NameError]; with the three names bound to the
    members it reads the file and then raises [AttributeError] for
    [regex] while it builds the message.  No [ValueError] naming the
    file and the pattern is raised either way. *)
Example get_current_version_no_match_error :
  let c := example_manifest (TList [TStr "version"]) "pdm.pep517.api" in
  let r := example_source c in
  let content := text_of_string "version = 1.2.3" in
  let w := example_world content in
  find_dynamic_config example_div example_root c = inr (Some example_store) ∧
  files w !! file example_store = Some content ∧
  search DEFAULT_REGEX content = None ∧
  __get_current_version example_str example_from_string module_globals (r, w)
    = (inl (NameError "_DynamicVersionSource__find_dynamic_config"), (r, w)) ∧
  __get_current_version example_str example_from_string
    (member_globals example_div example_str posix example_encodable) (r, w)
    = (inl (AttributeError "DynamicVersionConfig" "regex"),
       (r, mkWorld (disk w) [IoRead example_file])).
Proof. repeat split; by vm_compute. Qed.

(** C6.  A project with another build backend: no descriptor is
    derived, and the resolver of the module raises [NameError]; the
    [ValueError] about the unsupported source is what comes out with the
    three names bound to the members. *)
Example get_current_version_other_backend_error :
  let c := example_manifest (TList [TStr "version"]) "setuptools.build_meta" in
  let r := example_source c in
  let w := example_world (version_line "1.2.3") in
  find_dynamic_config example_div example_root c = inr None ∧
  __get_current_version example_str example_from_string module_globals (r, w)
    = (inl (NameError "_DynamicVersionSource__find_dynamic_config"), (r, w)) ∧
  __get_current_version example_str example_from_string
    (member_globals example_div example_str posix example_encodable) (r, w)
    = (inl (ValueError "Failed to extract dynamic version from proj. Only pdm-pep517 `file` types are supported."),
       (r, w)).
Proof. repeat split; by vm_compute. Qed.


(** C3, the claim as it was stated, refuted.  A store reads version 1.0;
    the file then holds 2.0; the second read on the same store still
    answers 1.0, from the slot that the first read filled, and reads
    nothing. *)
Example dynamic_version_second_read_is_stale :
  let old_text := version_line "1.0" in
  let new_text := version_line "2.0" in
  ∃ d1 w1,
    dynamic_version example_str (example_store, example_world old_text)
      = (inr (Some (text_of_string "1.0")), (d1, w1)) ∧
    files (example_world new_text) !! file d1 = Some new_text ∧
    captured_version (pattern d1) new_text
      = inr (Some (text_of_string "2.0")) ∧
    dynamic_version example_str (d1, example_world new_text)
      = (inr (Some (text_of_string "1.0")), (d1, example_world new_text)) ∧
    (dynamic_version example_str (d1, example_world new_text)).1
      ≠ inr (Some (text_of_string "2.0")) ∧
    dynamic_version_cached d1 = Some (Some (text_of_string "1.0")).
Proof.
  eexists _, _. split; [by vm_compute|].
  split; [by vm_compute|]. split; [by vm_compute|].
  split; [by vm_compute|]. split; [|by vm_compute].
  vm_compute. intros [=].
Qed.

(** C8, the claim as it was stated, refuted.  With the string [version]
    at [project.dynamic], which is no array, [is_enabled] answers
    [true]. *)
Example is_enabled_on_string_value :
  let c := example_manifest (TStr "version") "pdm.pep517.api" in
  get_pyproject_value c ["project"; "dynamic"] = Some (TStr "version") ∧
  (¬ ∃ l, get_pyproject_value c ["project"; "dynamic"] = Some (TList l)) ∧
  (is_enabled (example_source c, example_world [])).1 = inr true.
Proof.
  split; [by vm_compute|]. split; [|by vm_compute].
  intros [l Hl]. vm_compute in Hl. discriminate.
Qed.

(** ** The theorems at work on the concrete project *)


Lemma dynamic_version_read_once_witness :
  ∃ d',
    dynamic_version example_str (example_store, example_world (version_line "1.0"))
      = (inr (Some (text_of_string "1.0")),
         (d', mkWorld (disk (example_world (version_line "1.0")))
                      ([] ++ [IoRead example_file]))) ∧
    file d' = example_file ∧ pattern d' = DEFAULT_REGEX ∧
    dynamic_version_cached d' = Some (Some (text_of_string "1.0")) ∧
    ∀ w2, dynamic_version example_str (d', w2)
          = (inr (Some (text_of_string "1.0")), (d', w2)).
Proof.
  apply (dynamic_version_read_once example_str example_store
           (example_world (version_line "1.0")) (version_line "1.0")
           (Some (text_of_string "1.0"))).
  - reflexivity.
  - vm_compute. reflexivity.
  - vm_compute. reflexivity.
Defined.


Lemma default_pattern_mismatched_quotes_witness :
  ∃ d' w',
    dynamic_version example_str
      (DynamicVersionConfig_init example_file DEFAULT_REGEX,
       example_world (quoted_version_line DQUOTE SQUOTE))
    = (inr (Some (text_of_string "1.2.3")), (d', w')).
Proof.
  apply (default_pattern_mismatched_quotes example_str
           (example_world (quoted_version_line DQUOTE SQUOTE)) example_file
           DQUOTE SQUOTE).
  - vm_compute. left.
  - vm_compute. right. left.
  - vm_compute. reflexivity.
Defined.

Lemma get_current_version_cached_witness :
  let c := example_manifest (TList [TStr "version"]) "pdm.pep517.api" in
  let v := text_of_string "2.0.0" in
  let r1 := mkDynamicVersionSource example_root c (Some v) in
  current_version r1 = Some v ∧
  ∀ w2,
    __get_current_version example_str example_from_string module_globals
      (r1, w2) = (inr v, (r1, w2)).
Proof.
  apply (get_current_version_cached example_str example_from_string
           module_globals
           (example_source
              (example_manifest (TList [TStr "version"]) "pdm.pep517.api"))
           _ (example_world (version_line "1.2.3"))
           (example_world (version_line "1.2.3")) (text_of_string "2.0.0")).
  right. reflexivity.
Defined.

Lemma save_value_unresolved_witness :
  let r := example_source
             (example_manifest (TList [TStr "version"]) "pdm.pep517.api") in
  let w := example_world (version_line "1.2.3") in
  save_value example_str example_format module_globals (r, w)
  = (inl (ValueError "No current value set"), (r, w)).
Proof.
  apply (save_value_unresolved example_str example_format module_globals
           (example_source
              (example_manifest (TList [TStr "version"]) "pdm.pep517.api"))
           (example_world (version_line "1.2.3"))).
  reflexivity.
Defined.

Lemma is_enabled_array_gate_witness :
  let r := example_source
             (example_manifest (TList [TStr "version"]) "pdm.pep517.api") in
  ∃ b : bool,
    (is_enabled (r, example_world [])).1 = inr b ∧
    (b = true ↔
     ∃ l, get_pyproject_value (config r) ["project"; "dynamic"]
            = Some (TList l) ∧ TStr "version" ∈ l).
Proof.
  apply (proj2 (is_enabled_array_gate
                  (example_source
                     (example_manifest (TList [TStr "version"])
                                       "pdm.pep517.api"))
                  (example_world []))).
  right. exists [TStr "version"]. reflexivity.
Defined.

(** * Further properties *)

(** ** More on the matcher *)

Lemma run_length_char_at cc (s : text) i d :
  d < run_length cc (drop i s) → char_at cc s (i + d).
Proof.
  unfold char_at. rewrite <- lookup_drop. generalize (drop i s) as u.
  intros u. revert d. induction u as [|c u IH]; intros d; simpl; [lia|].
  destruct (cclass_matches cc c) eqn:Hc; [|lia].
  destruct d as [|d]; simpl; [eauto|]. intros Hd. apply IH. lia.
Qed.

Lemma all_in_run_length cc (s : text) i j :
  i ≤ j → all_in cc s i j → j - i ≤ run_length cc (drop i s).
Proof.
  intros Hij Hall.
  assert (∀ d, d < j - i → char_at cc (drop i s) d) as Hu.
  { intros d Hd. destruct (Hall (i + d)) as (x & Hx & Hc); [lia|].
    exists x. by rewrite lookup_drop. }
  revert Hu. generalize (drop i s) as u, (j - i) as n. clear.
  intros u n. revert u. induction n as [|n IH]; intros u Hu; [lia|].
  destruct (Hu 0) as (x & Hx & Hc); [lia|].
  destruct u as [|c u]; simpl in *; [done|]. injection Hx as ->.
  rewrite Hc. apply le_n_S, IH. intros d Hd. apply (Hu (S d)). lia.
Qed.

Lemma try_down_complete {R} (k : nat → option R) base n j :
  base ≤ j ≤ base + n → is_Some (k j) → is_Some (try_down k base n).
Proof.
  induction n as [|n IH]; intros Hj Hk; simpl.
  - replace (base + 0) with j by lia. by destruct (k j).
  - destruct (k (base + S n)) eqn:Hn; [done|].
    apply IH; [|done]. destruct (decide (j = base + S n)) as [->|]; [|lia].
    rewrite Hn in Hk. by destruct Hk.
Qed.

Lemma try_up_complete {R} (k : nat → option R) pos n j :
  pos ≤ j ≤ pos + n → is_Some (k j) → is_Some (try_up k pos n).
Proof.
  revert pos. induction n as [|n IH]; intros pos Hj Hk; simpl.
  - replace pos with j by lia. by destruct (k j).
  - destruct (k pos) eqn:Hn; [done|].
    apply IH; [|done]. destruct (decide (j = pos)) as [->|]; [|lia].
    rewrite Hn in Hk. by destruct Hk.
Qed.

(** The lazy loop returns the first offset at which the rest succeeds. *)
Lemma try_up_first {R} (k : nat → option R) pos n res :
  try_up k pos n = Some res →
  ∃ j, pos ≤ j ≤ pos + n ∧ k j = Some res ∧ ∀ j', pos ≤ j' < j → k j' = None.
Proof.
  revert pos. induction n as [|n IH]; intros pos; simpl;
    destruct (k pos) eqn:Hk.
  - intros [= ->]. exists pos. repeat split; [lia..|done|intros; lia].
  - done.
  - intros [= ->]. exists pos. repeat split; [lia..|done|intros; lia].
  - intros Hn. destruct (IH _ Hn) as (j & Hj & Hres & Hfirst). exists j.
    repeat split; [lia..|done|]. intros j' Hj'.
    destruct (decide (j' = pos)) as [->|]; [done|]. apply Hfirst. lia.
Qed.

Section MatcherSteps.
Context {R : Type}.
Variable multiline : bool.
Variable s : text.
Implicit Types (k : nat → captures → option R) (i j : nat) (caps : captures).

Lemma rmatch_char_inv cc i caps k res :
  rmatch multiline s (RChar cc) i caps k = Some res →
  char_at cc s i ∧ k (S i) caps = Some res.
Proof.
  simpl. unfold char_at. destruct (s !! i) as [c|]; [|done].
  destruct (cclass_matches cc c) eqn:Hc; [|done]. eauto.
Qed.

Lemma rmatch_char_fwd cc i caps k :
  char_at cc s i → rmatch multiline s (RChar cc) i caps k = k (S i) caps.
Proof. intros (x & Hx & Hc). simpl. by rewrite Hx, Hc. Qed.

Lemma rmatch_lit_inv (t : text) i caps k res :
  rmatch multiline s (RLit t) i caps k = Some res →
  (∀ d, d < length t → s !! (i + d) = t !! d) ∧
  k (i + length t) caps = Some res.
Proof.
  revert i. induction t as [|c t IH]; intros i; simpl.
  - rewrite Nat.add_0_r. split; [intros; lia|done].
  - destruct (s !! i) as [x|] eqn:Hx; [|done].
    destruct (N.eqb_spec c x) as [->|]; [|done]. intros Hm.
    destruct (IH _ Hm) as [Hl Hk]. split.
    + intros [|d] Hd; simpl in *; [by rewrite Nat.add_0_r|].
      rewrite <- Hl by lia. f_equal. lia.
    + rewrite <- Hk. f_equal. lia.
Qed.

Lemma rmatch_lit_fwd (t : text) i caps k :
  (∀ d, d < length t → s !! (i + d) = t !! d) →
  rmatch multiline s (RLit t) i caps k = k (i + length t) caps.
Proof.
  revert i. induction t as [|c t IH]; intros i Hl; simpl.
  - by rewrite Nat.add_0_r.
  - specialize (Hl 0 ltac:(simpl; lia)) as H0. rewrite Nat.add_0_r in H0.
    simpl in H0. rewrite H0, N.eqb_refl. rewrite IH.
    + f_equal. lia.
    + intros d Hd. specialize (Hl (S d) ltac:(simpl; lia)). simpl in Hl.
      rewrite <- Hl. f_equal. lia.
Qed.

Lemma rmatch_repeat_inv lazy min cc i caps k res :
  rmatch multiline s (RRepeat lazy min cc) i caps k = Some res →
  ∃ j, i + min ≤ j ∧ all_in cc s i j ∧ k j caps = Some res ∧
       (lazy = true → ∀ j', i + min ≤ j' < j → k j' caps = None).
Proof.
  simpl. destruct (Nat.ltb_spec (run_length cc (drop i s)) min) as [|Hmin]; [done|].
  assert (∀ j, j ≤ i + run_length cc (drop i s) → all_in cc s i j) as Hall.
  { intros j Hj p Hp. replace p with (i + (p - i)) by lia.
    apply run_length_char_at. lia. }
  destruct lazy; intros Hm.
  - apply try_up_first in Hm as (j & Hj & Hk & Hfirst). exists j.
    split; [lia|]. split; [apply Hall; lia|]. split; [done|]. by intros _.
  - apply try_down_inv in Hm as (j & Hj & Hk). exists j.
    split; [lia|]. split; [apply Hall; lia|]. split; [done|]. done.
Qed.

Lemma rmatch_repeat_fwd lazy min cc i j caps k :
  i + min ≤ j → all_in cc s i j → is_Some (k j caps) →
  is_Some (rmatch multiline s (RRepeat lazy min cc) i caps k).
Proof.
  intros Hj Hall Hk. simpl.
  pose proof (all_in_run_length cc s i j ltac:(lia) Hall) as Hrun.
  destruct (Nat.ltb_spec (run_length cc (drop i s)) min) as [|Hmin]; [lia|].
  destruct lazy.
  - apply (try_up_complete _ _ _ j); [lia|done].
  - apply (try_down_complete _ _ _ j); [lia|done].
Qed.
End MatcherSteps.

Section MatcherSteps2.
Context {R : Type}.
Variable multiline : bool.
Variable s : text.
Implicit Types (k : nat → captures → option R) (i j : nat) (caps : captures).

Lemma rmatch_bol_inv i caps k res :
  rmatch multiline s RBol i caps k = Some res →
  at_bol multiline s i = true ∧ k i caps = Some res.
Proof. simpl. by destruct (at_bol multiline s i). Qed.

Lemma rmatch_bol_fwd i caps k :
  at_bol multiline s i = true → rmatch multiline s RBol i caps k = k i caps.
Proof. intros Hb. simpl. by rewrite Hb. Qed.

Lemma rmatch_eol_inv i caps k res :
  rmatch multiline s REol i caps k = Some res →
  at_eol multiline s i = true ∧ k i caps = Some res.
Proof. simpl. by destruct (at_eol multiline s i). Qed.

Lemma rmatch_eol_fwd i caps k :
  at_eol multiline s i = true → rmatch multiline s REol i caps k = k i caps.
Proof. intros Hb. simpl. by rewrite Hb. Qed.

Lemma rmatch_opt_inv r i caps k res :
  rmatch multiline s (ROpt r) i caps k = Some res →
  rmatch multiline s r i caps k = Some res ∨ k i caps = Some res.
Proof. simpl. destruct (rmatch multiline s r i caps k); [left|right]; done. Qed.

Lemma rmatch_opt_fwd r i caps k :
  is_Some (rmatch multiline s r i caps k) ∨ is_Some (k i caps) →
  is_Some (rmatch multiline s (ROpt r) i caps k).
Proof.
  simpl. destruct (rmatch multiline s r i caps k); [done|].
  intros [[? [=]]|Hk]. done.
Qed.

Lemma rmatch_seq r1 r2 i caps k :
  rmatch multiline s (RSeq r1 r2) i caps k =
  rmatch multiline s r1 i caps (fun j c => rmatch multiline s r2 j c k).
Proof. done. Qed.

Lemma rmatch_group n r i caps k :
  rmatch multiline s (RGroup n r) i caps k =
  rmatch multiline s r i caps (fun j c => k j ((n, (i, j)) :: c)).
Proof. done. Qed.
End MatcherSteps2.

(** ** The shape of a match of the default pattern *)

Lemma match_at_default (s : text) i :
  match_at DEFAULT_REGEX s i =
  rmatch true s RBol i [] (fun j c =>
  rmatch true s (RLit VERSION_NAME) j c (fun j c =>
  rmatch true s (RRepeat false 0 CSpace) j c (fun j c =>
  rmatch true s (RChar (CLit EQUALS)) j c (fun j c =>
  rmatch true s (RRepeat false 0 CSpace) j c (fun j c =>
  rmatch true s (RChar QUOTES) j c (fun a c =>
  rmatch true s (RRepeat true 1 CAny) a c (fun b c =>
  rmatch true s TAIL b (("version", (a, b)) :: c)
    (fun j caps => Some (mkMatch s i j caps ["version"]))))))))).
Proof. done. Qed.

Lemma default_match_inv (s : text) i m :
  match_at DEFAULT_REGEX s i = Some m →
  ∃ p2 p3 b,
    PreShape s i p2 p3 ∧ p3 + 1 < b ∧ all_in CAny s (p3 + 1) b ∧
    tail_from s i (p3 + 1) b = Some m ∧
    ∀ b', p3 + 1 < b' < b → tail_from s i (p3 + 1) b' = None.
Proof.
  rewrite match_at_default. intros Hm.
  apply rmatch_bol_inv in Hm as [Hbol Hm].
  apply rmatch_lit_inv in Hm as [Hlit Hm].
  apply rmatch_repeat_inv in Hm as (p2 & Hp2 & Hs1 & Hm & _).
  apply rmatch_char_inv in Hm as [Heq Hm].
  apply rmatch_repeat_inv in Hm as (p3 & Hp3 & Hs2 & Hm & _).
  apply rmatch_char_inv in Hm as [Hq Hm].
  apply rmatch_repeat_inv in Hm as (b & Hb & Hany & Hm & Hfirst).
  change (length VERSION_NAME) with 11 in *.
  replace (S p2) with (p2 + 1) in * by lia.
  replace (S p3) with (p3 + 1) in * by lia.
  exists p2, p3, b. split; [|split; [lia|split; [done|split; [done|]]]].
  - unfold PreShape. repeat split; try done; lia.
  - intros b' Hb'. apply (Hfirst eq_refl). lia.
Qed.

Lemma default_match_fwd (s : text) i p2 p3 b :
  PreShape s i p2 p3 → p3 + 1 < b → all_in CAny s (p3 + 1) b →
  is_Some (tail_from s i (p3 + 1) b) →
  is_Some (match_at DEFAULT_REGEX s i).
Proof.
  intros (Hbol & Hlit & Hp2 & Hs1 & Heq & Hp3 & Hs2 & Hq) Hb Hany Ht.
  rewrite match_at_default.
  rewrite rmatch_bol_fwd by done. rewrite rmatch_lit_fwd by done.
  change (length VERSION_NAME) with 11.
  apply (rmatch_repeat_fwd _ _ _ _ _ _ p2); [lia|done|].
  rewrite rmatch_char_fwd by done.
  apply (rmatch_repeat_fwd _ _ _ _ _ _ p3);
    [lia|by replace (S p2) with (p2 + 1) by lia|].
  rewrite rmatch_char_fwd by done.
  apply (rmatch_repeat_fwd _ _ _ _ _ _ b);
    [lia|by replace (S p3) with (p3 + 1) by lia|].
  by replace (S p3) with (p3 + 1) by lia.
Qed.

Lemma tail_from_eq (s : text) i a b :
  tail_from s i a b =
  rmatch true s (RChar QUOTES) b [("version", (a, b))] (fun j c =>
  rmatch true s (RRepeat false 0 CSpace) j c (fun j c =>
  rmatch true s (ROpt (RSeq (RChar (CLit HASH)) (RRepeat false 0 CAny))) j c
    (fun j c =>
  rmatch true s REol j c
    (fun j caps => Some (mkMatch s i j caps ["version"]))))).
Proof. done. Qed.

Lemma tail_from_inv (s : text) i a b m :
  tail_from s i a b = Some m →
  ∃ d5 dj, TailShape s b d5 dj ∧
           m = mkMatch s i (b + 1 + dj) [("version", (a, b))] ["version"].
Proof.
  rewrite tail_from_eq. intros Hm.
  apply rmatch_char_inv in Hm as [Hq Hm].
  apply rmatch_repeat_inv in Hm as (p5 & Hp5 & Hs & Hm & _).
  replace (S b) with (b + 1) in * by lia.
  apply rmatch_opt_inv in Hm as [Hm|Hm].
  - rewrite rmatch_seq in Hm. apply rmatch_char_inv in Hm as [Hh Hm].
    apply rmatch_repeat_inv in Hm as (j & Hj & Hany & Hm & _).
    apply rmatch_eol_inv in Hm as [Heol [= <-]].
    exists (p5 - (b + 1)), (j - (b + 1)). unfold TailShape.
    replace (b + 1 + (p5 - (b + 1))) with p5 by lia.
    replace (b + 1 + (j - (b + 1))) with j by lia.
    split; [|done]. split; [done|]. split; [done|]. split; [|done].
    right. split; [done|]. split; [lia|].
    by replace (p5 + 1) with (S p5) by lia.
  - apply rmatch_eol_inv in Hm as [Heol [= <-]].
    exists (p5 - (b + 1)), (p5 - (b + 1)). unfold TailShape.
    replace (b + 1 + (p5 - (b + 1))) with p5 by lia.
    split; [|done]. split; [done|]. split; [done|]. split; [by left|done].
Qed.

Lemma tail_from_fwd (s : text) i a b d5 dj :
  TailShape s b d5 dj → is_Some (tail_from s i a b).
Proof.
  intros (Hq & Hs & Hrest & Heol). rewrite tail_from_eq.
  rewrite rmatch_char_fwd by done.
  apply (rmatch_repeat_fwd _ _ _ _ _ _ (b + 1 + d5)).
  { lia. } { by replace (S b) with (b + 1) by lia. }
  apply rmatch_opt_fwd. destruct Hrest as [->|(Hh & Hdj & Hany)].
  - right. by rewrite rmatch_eol_fwd.
  - left. rewrite rmatch_seq. rewrite rmatch_char_fwd by done.
    apply (rmatch_repeat_fwd _ _ _ _ _ _ (b + 1 + dj)).
    { lia. } { by replace (S (b + 1 + d5)) with (b + 1 + d5 + 1) by lia. }
    by rewrite rmatch_eol_fwd.
Qed.

(** [search] returns the match at the first offset that has one. *)
Lemma search_from_first p (s : text) i n m :
  search_from p s i n = Some m →
  ∃ i', i ≤ i' ≤ i + n ∧ match_at p s i' = Some m ∧
        ∀ i'', i ≤ i'' < i' → match_at p s i'' = None.
Proof.
  revert i. induction n as [|n IH]; intros i; simpl;
    destruct (match_at p s i) eqn:Hm.
  - intros [= ->]. exists i. repeat split; [lia..|done|intros; lia].
  - done.
  - intros [= ->]. exists i. repeat split; [lia..|done|intros; lia].
  - intros Hn. destruct (IH _ Hn) as (i' & Hi' & Hm' & Hfirst). exists i'.
    repeat split; [lia..|done|]. intros i'' Hi''.
    destruct (decide (i'' = i)) as [->|]; [done|]. apply Hfirst. lia.
Qed.

Lemma search_from_intro p (s : text) i n i' m :
  i ≤ i' ≤ i + n → match_at p s i' = Some m →
  (∀ i'', i ≤ i'' < i' → match_at p s i'' = None) →
  search_from p s i n = Some m.
Proof.
  revert i. induction n as [|n IH]; intros i Hi Hm Hfirst; simpl.
  - replace i with i' by lia. by rewrite Hm.
  - destruct (decide (i' = i)) as [->|Hne]; [by rewrite Hm|].
    rewrite Hfirst by lia. apply IH; [lia|done|]. intros. apply Hfirst. lia.
Qed.

Lemma char_at_agree n (s s' : text) cc p :
  agree_below n s s' → p < n → char_at cc s p → char_at cc s' p.
Proof. intros Ha Hp (x & Hx & Hc). exists x. by rewrite <- Ha. Qed.

Lemma all_in_agree n (s s' : text) cc lo hi :
  agree_below n s s' → hi ≤ n → all_in cc s lo hi → all_in cc s' lo hi.
Proof.
  intros Ha Hhi Hall p Hp. apply (char_at_agree n s); [done|lia|by apply Hall].
Qed.

Lemma at_bol_agree n (s s' : text) i :
  agree_below n s s' → i ≤ n → at_bol true s i = at_bol true s' i.
Proof.
  intros Ha Hi. destruct i as [|i]; [done|].
  pose proof (Ha i ltac:(lia)) as Hx. unfold at_bol, char in *. by rewrite Hx.
Qed.

Lemma at_eol_true_iff (s : text) j :
  at_eol true s j = true ↔ s !! j = Some NEWLINE ∨ j = length s.
Proof.
  unfold at_eol. destruct (s !! j) as [c|] eqn:Hc.
  - apply lookup_lt_Some in Hc as Hlt. simpl. rewrite andb_true_r.
    rewrite N.eqb_eq. split; [intros ->; by left|].
    intros [[= ->]|]; [done|unfold char in *; lia].
  - rewrite Nat.eqb_eq. split; [by right|]. by intros [[=]|].
Qed.

Lemma agree_below_sym n (s s' : text) :
  agree_below n s s' → agree_below n s' s.
Proof. intros Ha p Hp. symmetry. by apply Ha. Qed.

Lemma PreShape_agree n (s s' : text) i p2 p3 :
  agree_below n s s' → p3 < n → PreShape s i p2 p3 → PreShape s' i p2 p3.
Proof.
  intros Ha Hn (Hbol & Hlit & Hp2 & Hs1 & Heq & Hp3 & Hs2 & Hq).
  repeat split; try done.
  - rewrite <- (at_bol_agree n s s') by (done || lia). done.
  - intros d Hd. rewrite <- Ha by lia. by apply Hlit.
  - apply (all_in_agree n s); [done|lia|done].
  - apply (char_at_agree n s); [done|lia|done].
  - apply (all_in_agree n s); [done|lia|done].
  - apply (char_at_agree n s); [done|lia|done].
Qed.

Lemma space_not_equals x :
  cclass_matches CSpace x = true → cclass_matches (CLit EQUALS) x = true → False.
Proof.
  intros Hs He. cbn [cclass_matches] in He. apply N.eqb_eq in He as <-.
  by vm_compute in Hs.
Qed.

Lemma space_not_quote x :
  cclass_matches CSpace x = true → cclass_matches QUOTES x = true → False.
Proof.
  intros Hs Hq. unfold QUOTES in Hq. cbn [cclass_matches existsb] in Hq.
  rewrite !orb_true_iff, !N.eqb_eq in Hq.
  destruct Hq as [<-|[<-|[=]]]; by vm_compute in Hs.
Qed.

(** The line up to the opening quote can be read in one way only. *)
Lemma PreShape_unique (s : text) i p2 p3 p2' p3' :
  PreShape s i p2 p3 → PreShape s i p2' p3' → p2 = p2' ∧ p3 = p3'.
Proof.
  intros (_ & _ & Hp2 & Hs1 & Heq & Hp3 & Hs2 & Hq)
         (_ & _ & Hp2' & Hs1' & Heq' & Hp3' & Hs2' & Hq').
  assert (∀ cc lo q q',
            (∀ x, cclass_matches CSpace x = true →
                  cclass_matches cc x = true → False) →
            lo ≤ q → all_in CSpace s lo q' → char_at cc s q → q' ≤ q)
    as Hstop.
  { intros cc lo q q' Hdis Hlo Hall (x & Hx & Hc).
    destruct (decide (q' ≤ q)) as [|Hgt]; [done|].
    destruct (Hall q) as (y & Hy & Hd); [lia|].
    rewrite Hx in Hy. injection Hy as <-. destruct (Hdis x Hd Hc). }
  assert (p2 = p2') as <-.
  { apply Nat.le_antisymm.
    - by apply (Hstop (CLit EQUALS) (i + 11) p2' p2 space_not_equals).
    - by apply (Hstop (CLit EQUALS) (i + 11) p2 p2' space_not_equals). }
  split; [done|]. apply Nat.le_antisymm.
  - by apply (Hstop QUOTES (p2 + 1) p3' p3 space_not_quote).
  - by apply (Hstop QUOTES (p2 + 1) p3 p3' space_not_quote).
Qed.

Lemma char_at_elsewhere cc (t : text) p q c :
  t !! p = Some c → cclass_matches cc c = false → char_at cc t q → q ≠ p.
Proof. intros Hp Hc (x & Hx & Hm) ->. rewrite Hp in Hx. congruence. Qed.

Lemma all_in_elsewhere cc (t : text) p lo hi c :
  t !! p = Some c → cclass_matches cc c = false → all_in cc t lo hi →
  ¬ (lo ≤ p < hi).
Proof.
  intros Hp Hc Hall Hin.
  by apply (char_at_elsewhere cc t p p c Hp Hc (Hall p Hin)).
Qed.

Lemma VERSION_NAME_no_newline d x :
  VERSION_NAME !! d = Some x → x ≠ NEWLINE.
Proof.
  do 11 (destruct d as [|d]; [by intros [= <-]|]). done.
Qed.

(** A match of the default pattern does not reach the next line that
    starts with an underscore. *)
Lemma default_match_stops_before_line (t : text) i' i p2 p3 b d5 dj :
  PreShape t i' p2 p3 → p3 + 1 < b → all_in CAny t (p3 + 1) b →
  TailShape t b d5 dj →
  i' < i → t !! (i - 1) = Some NEWLINE → t !! i = Some 95%N →
  b + 1 + dj < i.
Proof.
  intros (_ & Hlit & Hp2 & Hs1 & Heq & Hp3 & Hs2 & Hq) Hb Hany
         (Hq' & Hs3 & Hrest & Heol) Hi Hnl Hus.
  assert (¬ (i' ≤ i - 1 < i' + 11)) as E0.
  { intros Hin. specialize (Hlit (i - 1 - i') ltac:(lia)).
    replace (i' + (i - 1 - i')) with (i - 1) in Hlit by lia.
    rewrite Hnl in Hlit. symmetry in Hlit.
    by apply VERSION_NAME_no_newline in Hlit. }
  pose proof (all_in_elsewhere CSpace _ _ _ _ _ Hus eq_refl Hs1) as E1.
  pose proof (char_at_elsewhere (CLit EQUALS) _ _ _ _ Hus eq_refl Heq) as E2.
  pose proof (char_at_elsewhere (CLit EQUALS) _ _ _ _ Hnl eq_refl Heq) as E3.
  pose proof (all_in_elsewhere CSpace _ _ _ _ _ Hus eq_refl Hs2) as E4.
  pose proof (char_at_elsewhere QUOTES _ _ _ _ Hus eq_refl Hq) as E5.
  pose proof (char_at_elsewhere QUOTES _ _ _ _ Hnl eq_refl Hq) as E6.
  pose proof (all_in_elsewhere CAny _ _ _ _ _ Hnl eq_refl Hany) as E7.
  pose proof (char_at_elsewhere QUOTES _ _ _ _ Hus eq_refl Hq') as E8.
  pose proof (char_at_elsewhere QUOTES _ _ _ _ Hnl eq_refl Hq') as E9.
  pose proof (all_in_elsewhere CSpace _ _ _ _ _ Hus eq_refl Hs3) as E10.
  assert (b + 1 + dj ≠ i) as E11.
  { intros Hj. rewrite Hj in Heol. apply at_eol_true_iff in Heol as [He|He].
    - unfold char in *. rewrite Hus in He. done.
    - apply lookup_lt_Some in Hus. unfold char in *. lia. }
  destruct Hrest as [->|(Hh & Hdj & Hany2)]; [lia|].
  pose proof (char_at_elsewhere (CLit HASH) _ _ _ _ Hus eq_refl Hh) as E12.
  pose proof (char_at_elsewhere (CLit HASH) _ _ _ _ Hnl eq_refl Hh) as E13.
  pose proof (all_in_elsewhere CAny _ _ _ _ _ Hnl eq_refl Hany2) as E14.
  lia.
Qed.

Lemma TailShape_agree n (s s' : text) b d5 dj :
  agree_below n s s' → b + 1 + dj < n → n ≤ length s →
  TailShape s b d5 dj → TailShape s' b d5 dj.
Proof.
  intros Ha Hn Hlen (Hq & Hs & Hrest & Heol).
  assert (d5 ≤ dj) by (destruct Hrest as [->|(_ & ? & _)]; lia).
  split; [apply (char_at_agree n s); [done|lia|done]|].
  split; [apply (all_in_agree n s); [done|lia|done]|].
  split.
  - destruct Hrest as [->|(Hh & Hdj & Hany)]; [by left|right].
    split; [apply (char_at_agree n s); [done|lia|done]|].
    split; [done|]. apply (all_in_agree n s); [done|lia|done].
  - apply at_eol_true_iff. apply at_eol_true_iff in Heol as [He|He].
    + left. by rewrite <- Ha.
    + unfold char in *. lia.
Qed.

(** An offset without a match stays without one when the text changes
    only from the opening quote of a later match on. *)
Lemma default_no_match_agree (s s' : text) i p2 p3 i' :
  PreShape s i p2 p3 → agree_below (p3 + 1) s s' →
  i' < i → match_at DEFAULT_REGEX s i' = None →
  match_at DEFAULT_REGEX s' i' = None.
Proof.
  intros Hpre Ha Hi Hnone.
  destruct (match_at DEFAULT_REGEX s' i') as [m'|] eqn:Hm'; [exfalso|done].
  apply default_match_inv in Hm' as (q2 & q3 & b & Hpre' & Hb & Hany & Ht & _).
  apply tail_from_inv in Ht as (d5 & dj & Htail & _).
  pose proof (PreShape_agree (p3 + 1) s s' i p2 p3 Ha ltac:(lia) Hpre)
    as Hpres'.
  destruct Hpre as (Hbol & Hlit & Hp2 & _ & _ & Hp3 & _ & _).
  destruct Hpres' as (Hbol' & Hlit' & _).
  assert (s' !! i = Some 95%N) as Hus.
  { specialize (Hlit' 0 ltac:(lia)). by rewrite Nat.add_0_r in Hlit'. }
  assert (s' !! (i - 1) = Some NEWLINE) as Hnl.
  { destruct i as [|i]; [lia|]. unfold at_bol in Hbol'. simpl in Hbol'.
    replace (S i - 1) with i by lia.
    destruct (s' !! i) as [c|]; [|done].
    by apply N.eqb_eq in Hbol' as ->. }
  pose proof (default_match_stops_before_line _ _ _ _ _ _ _ _
                Hpre' Hb Hany Htail Hi Hnl Hus) as Hend.
  assert (agree_below (i + 1) s' s) as Ha'.
  { intros p Hp. symmetry. apply Ha. lia. }
  assert (i + 1 ≤ length s') as Hlen.
  { apply lookup_lt_Some in Hus. unfold char in *. lia. }
  assert (is_Some (match_at DEFAULT_REGEX s i')) as [m Hm]; [|congruence].
  apply (default_match_fwd s i' q2 q3 b).
  - pose proof Hpre' as (_ & _ & ? & _ & _ & ? & _ & _).
    apply (PreShape_agree (i + 1) s'); [done|lia|done].
  - done.
  - apply (all_in_agree (i + 1) s'); [done|lia|done].
  - apply (tail_from_fwd s i' (q3 + 1) b d5 dj).
    apply (TailShape_agree (i + 1) s'); [done|lia|done|done].
Qed.

(** The text with the span [a .. b] replaced by [v], offset by offset. *)
Lemma splice_lookup (s v : text) a b :
  a ≤ b ≤ length s →
  let s' := take a s ++ v ++ drop b s in
  agree_below a s s' ∧
  (∀ d, d < length v → s' !! (a + d) = v !! d) ∧
  (∀ d, s' !! (a + length v + d) = s !! (b + d)) ∧
  length s' = a + length v + (length s - b).
Proof.
  intros Hab s'. subst s'.
  assert (length (take a s) = a) as Hta by (rewrite length_take; lia).
  repeat split.
  - intros p Hp. rewrite lookup_app_l by lia. symmetry. by apply lookup_take_lt.
  - intros d Hd. rewrite lookup_app_r by lia. rewrite Hta.
    rewrite lookup_app_l by lia. f_equal. lia.
  - intros d. rewrite lookup_app_r by lia. rewrite Hta.
    rewrite lookup_app_r by lia. rewrite lookup_drop. f_equal. lia.
  - rewrite !length_app, Hta, length_drop. lia.
Qed.

Lemma TailShape_shift (s s' : text) b b' d5 dj :
  (∀ d, s' !! (b' + d) = s !! (b + d)) →
  b ≤ length s → length s' - b' = length s - b → b' ≤ length s' →
  TailShape s b d5 dj → TailShape s' b' d5 dj.
Proof.
  intros Hsh Hb Hlen Hb' (Hq & Hs & Hrest & Heol).
  assert (∀ cc d, char_at cc s (b + d) → char_at cc s' (b' + d)) as Hc.
  { intros cc d (x & Hx & Hm). exists x. by rewrite Hsh. }
  assert (∀ cc lo hi, all_in cc s (b + lo) (b + hi) →
                      all_in cc s' (b' + lo) (b' + hi)) as Hall.
  { intros cc lo hi Ha p Hp. replace p with (b' + (p - b')) by lia.
    apply Hc, Ha. lia. }
  split; [|split; [|split]].
  - rewrite <- (Nat.add_0_r b'). apply Hc. by rewrite Nat.add_0_r.
  - rewrite <- !Nat.add_assoc. apply Hall. by rewrite !Nat.add_assoc.
  - destruct Hrest as [->|(Hh & Hdj & Hany)]; [by left|right].
    split; [|split; [done|]].
    + rewrite <- !Nat.add_assoc. apply Hc. by rewrite !Nat.add_assoc.
    + rewrite <- !Nat.add_assoc. apply Hall. by rewrite !Nat.add_assoc.
  - apply at_eol_true_iff. apply at_eol_true_iff in Heol as [He|He].
    + left. rewrite <- Nat.add_assoc, Hsh. by rewrite Nat.add_assoc.
    + right. unfold char in *. lia.
Qed.

(** A line that holds a quote-free text [v] between two quotes is matched
    with [v] as its version, whatever follows the closing quote in the
    ways the pattern allows. *)
Lemma default_match_plain (s v : text) i p2 p3 d5 dj :
  PreShape s i p2 p3 → quote_free v →
  (∀ d, d < length v → s !! (p3 + 1 + d) = v !! d) →
  TailShape s (p3 + 1 + length v) d5 dj →
  ∃ j, match_at DEFAULT_REGEX s i =
       Some (mkMatch s i j [("version", (p3 + 1, p3 + 1 + length v))]
                     ["version"]).
Proof.
  intros Hpre [Hne Hplain] Hin Htail. set (a := p3 + 1) in *.
  assert (0 < length v) as Hv by (destruct v; [done|simpl; lia]).
  assert (all_in CAny s a (a + length v)) as Hany.
  { intros p Hp. replace p with (a + (p - a)) by lia.
    destruct (lookup_lt_is_Some_2 v (p - a) ltac:(lia)) as [x Hx].
    exists x. rewrite Hin by lia. split; [done|].
    rewrite Forall_lookup in Hplain. destruct (Hplain _ _ Hx) as (Hnl & _).
    simpl. by apply negb_true_iff, N.eqb_neq. }
  assert (is_Some (match_at DEFAULT_REGEX s i)) as [m Hm].
  { apply (default_match_fwd s i p2 p3 (a + length v)); [done|lia|done|].
    by apply (tail_from_fwd s i a _ d5 dj). }
  rewrite Hm.
  apply default_match_inv in Hm
    as (q2 & q3 & b' & Hq & Hb' & Hany2 & Ht & Hfirst).
  destruct (PreShape_unique _ _ _ _ _ _ Hpre Hq) as [<- <-].
  fold a in Hb', Hany2, Ht, Hfirst.
  assert (b' = a + length v) as ->.
  { destruct (Nat.lt_trichotomy b' (a + length v)) as [Hlt|[->|Hgt]]; [|done|].
    - exfalso. apply tail_from_inv in Ht as (? & ? & (Hq' & _) & _).
      destruct Hq' as (y & Hx & Hm).
      replace b' with (a + (b' - a)) in Hx by lia. rewrite Hin in Hx by lia.
      rewrite Forall_lookup in Hplain.
      destruct (Hplain _ _ Hx) as (_ & Hd & Hsq).
      unfold QUOTES in Hm. cbn [cclass_matches existsb] in Hm.
      rewrite !orb_true_iff, !N.eqb_eq in Hm.
      destruct Hm as [Hm|[Hm|[=]]]; congruence.
    - exfalso.
      destruct (tail_from_fwd s i a _ d5 dj Htail) as [? Hsome].
      rewrite Hfirst in Hsome by lia. done. }
  apply tail_from_inv in Ht as (e5 & ej & _ & ->). eauto.
Qed.

(** After the captured span of a match at [i] has been replaced by a
    quote-free text [v], the pattern matches at [i] again and captures
    [v]. *)
Lemma default_match_rewritten (s v : text) i p2 p3 b d5 dj :
  PreShape s i p2 p3 → p3 + 1 < b → TailShape s b d5 dj →
  quote_free v →
  let a := p3 + 1 in
  let s' := take a s ++ v ++ drop b s in
  ∃ j', match_at DEFAULT_REGEX s' i =
        Some (mkMatch s' i j' [("version", (a, a + length v))] ["version"]).
Proof.
  intros Hpre Hb Htail Hv a s'.
  assert (b < length s) as Hblen.
  { destruct Htail as ((x & Hx & _) & _). apply lookup_lt_Some in Hx.
    unfold char in *. lia. }
  destruct (splice_lookup s v a b ltac:(lia)) as (Hag & Hin & Hsh & Hlen).
  fold s' in Hag, Hin, Hsh, Hlen.
  apply (default_match_plain s' v i p2 p3 d5 dj); [|done|done|].
  - apply (PreShape_agree a s); [done|lia|done].
  - apply (TailShape_shift s s' b); [done|lia|lia|lia|done].
Qed.

(** What [search] with the default pattern finds: the first offset with a
    match, the shape of the line there, and the one group. *)
Lemma search_default_inv (s : text) m :
  search DEFAULT_REGEX s = Some m →
  ∃ i p2 p3 b d5 dj,
    i ≤ length s ∧ PreShape s i p2 p3 ∧ p3 + 1 < b ∧
    all_in CAny s (p3 + 1) b ∧ TailShape s b d5 dj ∧
    m = mkMatch s i (b + 1 + dj) [("version", (p3 + 1, b))] ["version"] ∧
    ∀ i', i' < i → match_at DEFAULT_REGEX s i' = None.
Proof.
  intros Hs. apply search_from_first in Hs as (i & Hi & Hm & Hfirst).
  apply default_match_inv in Hm as (p2 & p3 & b & Hpre & Hb & Hany & Ht & _).
  apply tail_from_inv in Ht as (d5 & dj & Htail & ->).
  exists i, p2, p3, b, d5, dj.
  split; [unfold char in *; lia|]. do 5 (split; [done|]).
  intros i' Hi'. apply Hfirst. lia.
Qed.

Lemma search_default_rewritten (s v : text) m :
  search DEFAULT_REGEX s = Some m → quote_free v →
  ∃ a b s' m',
    a ≤ b ≤ length s ∧
    Match_span m "version" = inr (Z.of_nat a, Z.of_nat b) ∧
    s' = take a s ++ v ++ drop b s ∧
    search DEFAULT_REGEX s' = Some m' ∧
    Match_span m' "version"
      = inr (Z.of_nat a, Z.of_nat (a + length v)) ∧
    Match_group m' "version" = inr (Some v).
Proof.
  intros Hs Hv.
  apply search_default_inv in Hs
    as (i & p2 & p3 & b & d5 & dj & Hi & Hpre & Hb & Hany & Htail & -> & Hfirst).
  assert (b < length s) as Hblen.
  { destruct Htail as ((x & Hx & _) & _). apply lookup_lt_Some in Hx.
    unfold char in *. lia. }
  destruct (default_match_rewritten s v i p2 p3 b d5 dj Hpre Hb Htail Hv)
    as [j' Hm'].
  destruct (splice_lookup s v (p3 + 1) b ltac:(lia)) as (Hag & _ & _ & Hlen).
  eexists (p3 + 1), b, _, _. split; [lia|]. split; [done|]. split; [done|].
  split.
  - apply (search_from_intro _ _ 0 _ i); [|exact Hm'|].
    + pose proof Hpre as (_ & _ & ? & _ & _ & ? & _). unfold char in *. lia.
    + intros i' Hi'.
      apply (default_no_match_agree s _ i p2 p3); [done|done|lia|].
      apply Hfirst. lia.
  - split; [done|].
    unfold Match_group. simpl. do 2 f_equal. unfold substring.
    replace (p3 + 1 + length v - (p3 + 1)) with (length v) by lia.
    rewrite drop_app_length'; [|rewrite length_take; lia].
    by rewrite take_app_length.
Qed.

(** The version that the default pattern captures is never empty, holds
    no newline, and stands between two quote characters. *)
Lemma search_default_group (s : text) m :
  search DEFAULT_REGEX s = Some m →
  ∃ p3 b,
    p3 + 1 < b ∧ b < length s ∧
    Match_group m "version" = inr (Some (substring s (p3 + 1) b)) ∧
    char_at QUOTES s p3 ∧ all_in CAny s (p3 + 1) b ∧ char_at QUOTES s b.
Proof.
  intros Hs. apply search_default_inv in Hs
    as (i & p2 & p3 & b & d5 & dj & Hi & Hpre & Hb & Hany & Htail & -> & _).
  destruct Hpre as (_ & _ & _ & _ & _ & _ & _ & Hq).
  destruct Htail as (Hq' & _).
  assert (b < length s) as Hblen.
  { destruct Hq' as (x & Hx & _). apply lookup_lt_Some in Hx.
    unfold char in *. lia. }
  exists p3, b. done.
Qed.

Lemma substring_lookup (s v : text) a :
  (∀ d, d < length v → s !! (a + d) = v !! d) →
  substring s a (a + length v) = v.
Proof.
  intros Hin. unfold substring. replace (a + length v - a) with (length v) by lia.
  apply list_eq. intros d. destruct (decide (d < length v)) as [Hd|Hd].
  - rewrite lookup_take_lt by done. rewrite lookup_drop. by apply Hin.
  - rewrite lookup_take_ge by lia. symmetry. apply lookup_ge_None. lia.
Qed.


Lemma assignment_line_matches (pre post v : text) opening closing :
  opening ∈ [DQUOTE; SQUOTE] → closing ∈ [DQUOTE; SQUOTE] →
  quote_free v →
  pre = [] ∨ last pre = Some NEWLINE →
  post = [] ∨ head post = Some NEWLINE →
  let s := pre ++ assignment_line opening v closing ++ post in
  ∃ j, match_at DEFAULT_REGEX s (length pre) =
       Some (mkMatch s (length pre) j
               [("version", (length pre + 15, length pre + 15 + length v))]
               ["version"]).
Proof.
  intros Ho Hc Hv Hpre Hpost s. set (i := length pre).
  assert (∀ d, s !! (i + d) = (assignment_line opening v closing ++ post) !! d)
    as Hline.
  { intros d. subst s i. rewrite lookup_app_r by lia.
    by replace (length pre + d - length pre) with d by lia. }
  assert (∀ cc x, cclass_matches cc x = true → ∀ d,
            (assignment_line opening v closing ++ post) !! d = Some x →
            char_at cc s (i + d)) as Hchar.
  { intros cc x Hm d Hd. exists x. by rewrite Hline. }
  assert (cclass_matches QUOTES opening = true) as Hqo.
  { repeat (apply elem_of_cons in Ho as [->|Ho]; [done|]).
    by apply elem_of_nil in Ho. }
  assert (cclass_matches QUOTES closing = true) as Hqc.
  { repeat (apply elem_of_cons in Hc as [->|Hc]; [done|]).
    by apply elem_of_nil in Hc. }
  assert (∀ d, (assignment_line opening v closing ++ post) !! (15 + d)
               = (v ++ [closing] ++ post) !! d) as Hrest.
  { intros d. unfold assignment_line. by rewrite <- !app_assoc. }
  assert (PreShape s i (i + 12) (i + 14)) as Hshape.
  { split; [|split; [|split; [lia|split; [|split; [|split; [lia|split]]]]]].
    - destruct Hpre as [->|Hl]; [done|].
      subst i. destruct (length pre) as [|n] eqn:Hn.
      { by destruct pre. }
      unfold at_bol. simpl. subst s. unfold char in *.
      rewrite lookup_app_l by lia.
      rewrite last_lookup, Hn in Hl. simpl in Hl. by rewrite Hl.
    - intros d Hd. rewrite Hline.
      do 11 (destruct d as [|d]; [done|]). lia.
    - intros p Hp. replace p with (i + 11) by lia.
      by apply (Hchar CSpace 32%N).
    - by apply (Hchar (CLit EQUALS) EQUALS).
    - intros p Hp. replace p with (i + 13) by lia.
      by apply (Hchar CSpace 32%N).
    - by apply (Hchar QUOTES opening). }
  assert (∀ d, d < length v → s !! (i + 14 + 1 + d) = v !! d) as Hin.
  { intros d Hd. replace (i + 14 + 1 + d) with (i + (15 + d)) by lia.
    rewrite Hline, Hrest. by rewrite lookup_app_l. }
  assert (TailShape s (i + 14 + 1 + length v) 0 0) as Htail.
  { split; [|split; [intros p Hp; lia|split; [by left|]]].
    - replace (i + 14 + 1 + length v) with (i + (15 + length v)) by lia.
      apply (Hchar QUOTES closing); [done|]. rewrite Hrest.
      rewrite lookup_app_r by lia. by rewrite Nat.sub_diag.
    - apply at_eol_true_iff.
      replace (i + 14 + 1 + length v + 1 + 0)
        with (i + (15 + (length v + 1))) by lia.
      destruct Hpost as [->|Hh].
      + right. subst s i. unfold assignment_line.
        rewrite !length_app. simpl. lia.
      + left. rewrite Hline, Hrest. rewrite lookup_app_r by lia.
        replace (length v + 1 - length v) with 1 by lia.
        destruct post as [|c post]; [done|]. simpl in *. done. }
  destruct (default_match_plain s v i (i + 12) (i + 14) 0 0
              Hshape Hv Hin Htail) as [j Hj].
  exists j. subst i.
  by replace (length pre + 14 + 1) with (length pre + 15) in Hj by lia.
Qed.

(** ** More on [DynamicVersionConfig] *)

Section StoreExtras.
Context {Path : Type} `{Countable Path}.
Variable path_str : Path → string.
Variable os : os_name.
Variable encodable : char → bool.

Local Ltac run :=
  unfold dynamic_version, replace_dynamic_version, bind, get_self, set_self,
    read_file, write_file, lift, ret, raise; simpl.

(** X1.  Span precision.  With a pattern that binds the group [version]
    on every match, a write on a file whose text holds a match
    succeeds when that text and the new version can be encoded.  It
    leaves the store as it is and writes the old text with the
    captured span [a .. b] replaced by the new version: the characters
    before the span keep their offsets, the new version stands at
    offset [a], and the characters after the span follow it in their
    old order.  The file stores that text with its line feeds
    translated, no other file changes, and a read delivers that text
    when the new version holds no carriage return. *)
Theorem replace_dynamic_version_replaces_span (d : DynamicVersionConfig)
    (w : World) (s v : text) (m : Match) :
  always_binds "version" (pattern_regex (pattern d)) = true →
  files w !! file d = Some s →
  search (pattern d) s = Some m →
  can_encode os encodable s = true →
  can_encode os encodable v = true →
  ∃ (a b : nat) s' w',
    a ≤ b ≤ length s ∧
    Match_span m "version" = inr (Z.of_nat a, Z.of_nat b) ∧
    replace_dynamic_version path_str os encodable v (d, w)
      = (inr tt, (d, w')) ∧
    disk w' = <[file d := write_translate os s']> (disk w) ∧
    (CR ∉ v → files w' = <[file d := s']> (files w)) ∧
    length s' = a + length v + (length s - b) ∧
    (∀ p, p < a → s' !! p = s !! p) ∧
    (∀ k, k < length v → s' !! (a + k) = v !! k) ∧
    (∀ k, s' !! (a + length v + k) = s !! (b + k)).
Proof.
  intros Hbind Hf Hs Hes Hev.
  destruct (search_group_span _ _ _ _ Hs Hbind) as (a & b & Hab & Hsp & _).
  pose proof (replace_dynamic_version_splice path_str os encodable d w s m
                _ _ v Hf Hs Hsp (can_encode_splice _ _ _ _ _ _ Hes Hev))
    as Hw.
  simpl in Hw. rewrite slice_to_nat, slice_from_nat in Hw.
  destruct (splice_lookup s v a b Hab) as (Hag & Hin & Hsh & Hlen).
  eexists a, b, _, _. split; [done|]. split; [done|]. split; [exact Hw|].
  split; [done|]. split; [|split; [done|split; [|done]]].
  - intros Hcr. rewrite files_after_write, read_back; [done|].
    apply splice_no_CR; [|done]. by apply (files_no_CR w (file d)).
  - intros p Hp. symmetry. by apply Hag.
Qed.

(** X2.  A write that raises.  Whatever the pattern, the file and the
    new version, when [replace_dynamic_version] ends with an exception
    the store is what it was and no file but the store's own is
    touched.  Either nothing has been written, the only file access
    being at most the read of the store's file; or the exception is
    the [UnicodeEncodeError] of the write, raised after the read and
    after [open] has truncated the file, which is left empty. *)
Theorem replace_dynamic_version_error_outcomes
    (d d' : DynamicVersionConfig) (w w' : World) (v : text) (e : exn) :
  replace_dynamic_version path_str os encodable v (d, w)
    = (inl e, (d', w')) →
  d' = d ∧
  ((disk w' = disk w ∧
    (trace w' = trace w ∨ trace w' = trace w ++ [IoRead (file d)])) ∨
   (e = UnicodeEncodeError "character cannot be encoded" ∧
    disk w' = <[file d := []]> (disk w) ∧
    files w' !! file d = Some [] ∧
    trace w' = trace w ++ [IoRead (file d); IoTruncate (file d)])).
Proof.
  run. destruct (files w !! file d) as [s|]; simpl.
  - destruct (search (pattern d) s) as [m|]; simpl.
    + destruct (Match_span m "version") as [e'|[a b]]; simpl.
      * intros [= <- <- <-]. simpl. auto.
      * destruct (forallb encodable _); [done|].
        intros [= <- <- <-]. split; [done|]. right. simpl.
        split; [done|]. split; [done|]. split.
        -- rewrite files_after_write. apply lookup_insert_eq.
        -- by rewrite <- app_assoc.
    + intros [= <- <- <-]. simpl. auto.
  - intros [= <- <- <-]. auto.
Qed.


(** X4.  A store that has read does not see its own write.  On a store
    with the default pattern whose first read returned [V], a write of
    a plain version [v] (not empty, on one line, no quote character),
    the text of the file and [v] being encodable, succeeds and puts
    [v] into the file, and the next read on the same store still
    returns [V]. *)
Theorem dynamic_version_stale_after_own_write (w : World) (f : Path)
    (s V v : text) :
  files w !! f = Some s →
  captured_version DEFAULT_REGEX s = inr (Some V) →
  plain_version v →
  can_encode os encodable s = true →
  can_encode os encodable v = true →
  ∃ d1 w1 w2 s',
    dynamic_version path_str (DynamicVersionConfig_init f DEFAULT_REGEX, w)
      = (inr (Some V), (d1, w1)) ∧
    replace_dynamic_version path_str os encodable v (d1, w1)
      = (inr tt, (d1, w2)) ∧
    files w2 !! f = Some s' ∧
    captured_version DEFAULT_REGEX s' = inr (Some v) ∧
    dynamic_version path_str (d1, w2) = (inr (Some V), (d1, w2)).
Proof.
  intros Hf Hcap Hv Hes Hev.
  pose proof (plain_version_quote_free _ Hv) as Hq.
  pose proof (plain_version_no_CR _ Hv) as Hcr.
  set (d := DynamicVersionConfig_init f DEFAULT_REGEX).
  pose proof (dynamic_version_first_read path_str d w s (Some V)
                eq_refl Hf Hcap) as Hread.
  unfold captured_version in Hcap.
  destruct (search DEFAULT_REGEX s) as [m|] eqn:Hs; [|done].
  destruct (search_default_rewritten s v m Hs Hq)
    as (a & b & s' & m' & Hab & Hsp & -> & Hs' & Hsp' & Hg').
  eexists _, _, _, _. split; [exact Hread|]. split.
  - rewrite (replace_dynamic_version_splice path_str os encodable _ _ s m
               (Z.of_nat a) (Z.of_nat b) v);
      [reflexivity|exact Hf|done|exact Hsp|by apply can_encode_splice].
  - simpl. rewrite slice_to_nat, slice_from_nat.
    split; [|split].
    + rewrite files_after_write, lookup_insert_eq, read_back; [done|].
      apply splice_no_CR; [|done]. by apply (files_no_CR w f).
    + unfold captured_version. by rewrite Hs'.
    + by apply dynamic_version_cached_read.
Qed.

(** X5.  Round trip with a new version.  On a file whose text holds a
    match of the default pattern, a write of a plain version [v] (not
    empty, on one line, no quote character) through a new store, the
    text of the file and [v] being encodable, succeeds and replaces
    the captured span, and the read that follows returns [v]. *)
Theorem write_new_version_round_trip (w : World) (f : Path)
    (s v : text) (m : Match) :
  files w !! f = Some s →
  search DEFAULT_REGEX s = Some m →
  plain_version v →
  can_encode os encodable s = true →
  can_encode os encodable v = true →
  ∃ (a b : nat) d1 w1 d2 w2,
    a ≤ b ≤ length s ∧
    Match_span m "version" = inr (Z.of_nat a, Z.of_nat b) ∧
    replace_dynamic_version path_str os encodable v
      (DynamicVersionConfig_init f DEFAULT_REGEX, w) = (inr tt, (d1, w1)) ∧
    disk w1 !! f = Some (write_translate os (take a s ++ v ++ drop b s)) ∧
    files w1 !! f = Some (take a s ++ v ++ drop b s) ∧
    dynamic_version path_str (d1, w1) = (inr (Some v), (d2, w2)).
Proof.
  intros Hf Hs Hv Hes Hev.
  pose proof (plain_version_quote_free _ Hv) as Hq.
  pose proof (plain_version_no_CR _ Hv) as Hcr.
  destruct (search_default_rewritten s v m Hs Hq)
    as (a & b & s' & m' & Hab & Hsp & -> & Hs' & Hsp' & Hg').
  set (d := DynamicVersionConfig_init f DEFAULT_REGEX).
  pose proof (replace_dynamic_version_splice path_str os encodable d w s m
                _ _ v Hf Hs Hsp (can_encode_splice _ _ _ _ _ _ Hes Hev))
    as Hw.
  simpl in Hw. rewrite slice_to_nat, slice_from_nat in Hw.
  set (s' := take a s ++ v ++ drop b s) in *.
  assert (files (mkWorld (<[f := write_translate os s']> (disk w))
                   (trace w ++ [IoRead f]
                    ++ [IoTruncate f; IoWrite f (write_translate os s')]))
          !! f = Some s') as Hf1.
  { rewrite files_after_write, lookup_insert_eq, read_back; [done|].
    apply splice_no_CR; [|done]. by apply (files_no_CR w f). }
  eexists a, b, d, _, _, _. split; [done|]. split; [done|].
  split; [exact Hw|]. split; [apply lookup_insert_eq|]. split; [exact Hf1|].
  apply dynamic_version_first_read with (content := s').
  - done.
  - exact Hf1.
  - change (pattern d) with DEFAULT_REGEX. unfold captured_version.
    by rewrite Hs'.
Qed.

(** X6.  What the default pattern hands out.  A version returned by a
    first read with the default pattern is never empty and holds no
    newline, and in the file it stands between two quote characters,
    which need not be the same. *)
Theorem dynamic_version_default_delimited (w w' : World) (f : Path)
    (d' : DynamicVersionConfig) (V : text) :
  dynamic_version path_str (DynamicVersionConfig_init f DEFAULT_REGEX, w)
    = (inr (Some V), (d', w')) →
  V ≠ [] ∧ (NEWLINE ∉ V) ∧
  ∃ s p3,
    files w !! f = Some s ∧
    char_at QUOTES s p3 ∧
    (∀ k, k < length V → s !! (p3 + 1 + k) = V !! k) ∧
    char_at QUOTES s (p3 + 1 + length V).
Proof.
  run. destruct (files w !! f) as [s|] eqn:Hf; simpl; [|done].
  destruct (search DEFAULT_REGEX s) as [m|] eqn:Hs; simpl; [|done].
  destruct (search_default_group s m Hs)
    as (p3 & b & Hb & Hlen & Hg & Hq & Hany & Hq').
  rewrite Hg. simpl. intros [= <- _ _].
  assert (length (substring s (p3 + 1) b) = b - (p3 + 1)) as HlenV.
  { unfold substring. rewrite length_take, length_drop. lia. }
  assert (∀ k, k < b - (p3 + 1) →
               substring s (p3 + 1) b !! k = s !! (p3 + 1 + k)) as Hk.
  { intros k Hk. unfold substring. rewrite lookup_take_lt by done.
    by rewrite lookup_drop. }
  split; [|split].
  - intros Hnil. rewrite Hnil in HlenV. simpl in HlenV. lia.
  - intros Hin. apply list_elem_of_lookup in Hin as [k Hin].
    apply lookup_lt_Some in Hin as Hlt. rewrite HlenV in Hlt.
    rewrite Hk in Hin by done.
    destruct (Hany (p3 + 1 + k) ltac:(lia)) as (x & Hx & Hm).
    rewrite Hin in Hx. injection Hx as <-. done.
  - exists s, p3. split; [done|]. split; [done|]. rewrite HlenV. split.
    + intros k Hlt. symmetry. by apply Hk.
    + by replace (p3 + 1 + (b - (p3 + 1))) with b by lia.
Qed.


(** X8.  The default pattern reads an assignment wherever it stands.
    When the text of the file holds the line [__version__ = v] with a
    [v] that is not empty and free of line feeds and quote characters
    between any two quote characters, at the start of a line and up to
    the end of a line, and no offset before that line has a match, the
    first read returns [v]. *)
Theorem dynamic_version_reads_assignment (w : World) (f : Path)
    (pre post v : text) (opening closing : char) :
  opening ∈ [DQUOTE; SQUOTE] → closing ∈ [DQUOTE; SQUOTE] →
  quote_free v →
  pre = [] ∨ last pre = Some NEWLINE →
  post = [] ∨ head post = Some NEWLINE →
  let s := pre ++ assignment_line opening v closing ++ post in
  (∀ i, i < length pre → match_at DEFAULT_REGEX s i = None) →
  files w !! f = Some s →
  ∃ d' w',
    dynamic_version path_str (DynamicVersionConfig_init f DEFAULT_REGEX, w)
    = (inr (Some v), (d', w')).
Proof.
  intros Ho Hc Hv Hpre Hpost s Hfirst Hf.
  destruct (assignment_line_matches pre post v opening closing
              Ho Hc Hv Hpre Hpost) as [j Hj]. fold s in Hj.
  eexists _, _.
  apply dynamic_version_first_read with (content := s); [done|done|].
  change (pattern _) with DEFAULT_REGEX. unfold captured_version, search.
  erewrite (search_from_intro DEFAULT_REGEX s 0 (length s) (length pre));
    [| |exact Hj|].
  - unfold Match_group. simpl. do 2 f_equal.
    apply substring_lookup. intros k Hk. subst s. unfold assignment_line.
    rewrite lookup_app_r by lia.
    replace (length pre + 15 + k - length pre) with (15 + k) by lia.
    rewrite <- !app_assoc. simpl. by rewrite lookup_app_l.
  - subst s. rewrite length_app. lia.
  - intros i Hi. apply Hfirst. lia.
Qed.

(** X14.  Two writes in a row.  On a file whose text holds a match of
    the default pattern, a write of a plain version followed by a
    write of any version through the same store, all texts being
    encodable, leaves the files as one write of the last version
    would: the file stores the old text with the first captured span
    replaced by the last version. *)
Theorem successive_writes (w : World) (f : Path) (s v1 v2 : text) (m : Match) :
  files w !! f = Some s →
  search DEFAULT_REGEX s = Some m →
  plain_version v1 →
  can_encode os encodable s = true →
  can_encode os encodable v1 = true →
  can_encode os encodable v2 = true →
  ∃ (a b : nat) d1 w1 w2 w2',
    Match_span m "version" = inr (Z.of_nat a, Z.of_nat b) ∧
    replace_dynamic_version path_str os encodable v1
      (DynamicVersionConfig_init f DEFAULT_REGEX, w) = (inr tt, (d1, w1)) ∧
    replace_dynamic_version path_str os encodable v2 (d1, w1)
      = (inr tt, (d1, w2)) ∧
    replace_dynamic_version path_str os encodable v2
      (DynamicVersionConfig_init f DEFAULT_REGEX, w) = (inr tt, (d1, w2')) ∧
    disk w2 = disk w2' ∧
    disk w2 !! f = Some (write_translate os (take a s ++ v2 ++ drop b s)).
Proof.
  intros Hf Hs Hv Hes He1 He2.
  pose proof (plain_version_quote_free _ Hv) as Hq.
  pose proof (plain_version_no_CR _ Hv) as Hcr.
  destruct (search_default_rewritten s v1 m Hs Hq)
    as (a & b & s' & m' & Hab & Hsp & -> & Hs' & Hsp' & Hg').
  set (d := DynamicVersionConfig_init f DEFAULT_REGEX).
  pose proof (can_encode_splice os encodable s v1 (Z.of_nat a) (Z.of_nat b)
                Hes He1) as Hes1.
  pose proof (replace_dynamic_version_splice path_str os encodable d w s m
                _ _ v1 Hf Hs Hsp Hes1) as Hw1.
  simpl in Hw1. rewrite slice_to_nat, slice_from_nat in Hw1, Hes1.
  pose proof (replace_dynamic_version_splice path_str os encodable d w s m
                _ _ v2 Hf Hs Hsp (can_encode_splice _ _ _ _ _ _ Hes He2))
    as Hw2'.
  simpl in Hw2'. rewrite slice_to_nat, slice_from_nat in Hw2'.
  set (s1 := take a s ++ v1 ++ drop b s) in *.
  set (w1 := mkWorld (<[f := write_translate os s1]> (disk w))
                     (trace w ++ [IoRead f]
                      ++ [IoTruncate f; IoWrite f (write_translate os s1)]))
    in *.
  assert (files w1 !! file d = Some s1) as Hf1.
  { subst w1. rewrite files_after_write. simpl.
    rewrite lookup_insert_eq, read_back; [done|].
    apply splice_no_CR; [|done]. by apply (files_no_CR w f). }
  pose proof (replace_dynamic_version_splice path_str os encodable d w1 s1 m'
                _ _ v2 Hf1 Hs' Hsp'
                (can_encode_splice _ _ _ _ _ _ Hes1 He2)) as Hw2.
  simpl in Hw2. rewrite slice_to_nat, slice_from_nat in Hw2.
  assert (length (take a s) = a) as Hta by (rewrite length_take; lia).
  assert (take a s1 = take a s) as Htake.
  { subst s1. rewrite take_app_le by lia. rewrite take_ge by lia. done. }
  assert (drop (a + length v1) s1 = drop b s) as Hdrop.
  { subst s1. rewrite drop_app_ge by lia. rewrite Hta.
    rewrite drop_app_ge by lia.
    by replace (a + length v1 - a - length v1) with 0 by lia. }
  rewrite Htake, Hdrop in Hw2.
  eexists a, b, d, w1, _, _. split; [done|]. split; [exact Hw1|].
  split; [exact Hw2|]. split; [exact Hw2'|]. simpl. split.
  - apply insert_insert_eq.
  - apply lookup_insert_eq.
Qed.
End StoreExtras.

(** ** More on [find_dynamic_config] and [DynamicVersionSource] *)

Section ResolverExtras.
Context {Path : Type} `{Countable Path}.
Variable path_div : Path → string → Path.
Variable path_str : Path → string.
Variable os : os_name.
Variable encodable : char → bool.
Context {Version : Type}.
Variable Version_from_string : text → exn + Version.
Variable Pep440VersionFormatter_format : Version → text.

Local Abbreviation Source := (@DynamicVersionSource Path Version).

(** X9.  The three outcomes of [find_dynamic_config].  It returns
    [None] exactly when the build backend is not [pdm.pep517.api] or
    the version source is not [file]; when both have these values it
    returns the descriptor of the configured path under the project
    root, with the default pattern and nothing cached, if the path is a
    string, and raises [TypeError] if the path is missing or not a
    string. *)
Theorem find_dynamic_config_outcomes (root : Path) (c : Config) :
  let backend := get_pyproject_value c ["build-system"; "build-backend"] in
  let source := get_pyproject_value c ["tool"; "pdm"; "version"; "source"] in
  let path := get_pyproject_value c ["tool"; "pdm"; "version"; "path"] in
  let gate := backend = Some (TStr "pdm.pep517.api")
              ∧ source = Some (TStr "file") in
  (find_dynamic_config path_div root c = inr None ↔ ¬ gate) ∧
  (∀ p, gate → path = Some (TStr p) →
        find_dynamic_config path_div root c
        = inr (Some (mkDynamicVersionConfig (path_div root p)
                                            DEFAULT_REGEX None))) ∧
  (gate → (∀ p, path ≠ Some (TStr p)) →
   ∃ msg, find_dynamic_config path_div root c = inl (TypeError msg)).
Proof.
  intros backend source path gate. subst gate. unfold find_dynamic_config.
  fold backend source path. clearbody backend source path.
  assert (eq_str backend "pdm.pep517.api" && eq_str source "file" = true
          ↔ backend = Some (TStr "pdm.pep517.api")
            ∧ source = Some (TStr "file")) as Hgate.
  { rewrite andb_true_iff. unfold eq_str.
    destruct backend as [[s1| | |]|], source as [[s2| | |]|];
      try (split; [intros [[=] [=]]|intros [[=] [=]]]; fail).
    rewrite !String.eqb_eq. split; intros [? ?]; split; congruence. }
  destruct (eq_str backend "pdm.pep517.api" && eq_str source "file").
  - assert (backend = Some (TStr "pdm.pep517.api") ∧ source = Some (TStr "file"))
      as Hg by by apply Hgate.
    split; [|split].
    + split; [|done]. by destruct path as [[p| | |]|].
    + by intros p _ ->.
    + intros _ Hp. destruct path as [[p| | |]|]; eauto. by destruct (Hp p).
  - assert (¬ (backend = Some (TStr "pdm.pep517.api")
               ∧ source = Some (TStr "file"))) as Hg.
    { intros Hg. apply Hgate in Hg. done. }
    split; [done|]. split; [intros p ?; done|done].
Qed.

(** X10.  The resolver as the module is written.  Reading the current
    version and saving it never touch the resolver, the files or the
    record of file accesses: the read returns the cached version if
    there is one and raises [NameError] otherwise, and [save_value]
    raises on every resolver, [ValueError] without a cached version and
    [NameError] with one.  Only [__set_current_version] changes the
    resolver. *)
Theorem resolver_as_written_is_inert (r : Source) (w : World) :
  (__get_current_version path_str Version_from_string module_globals (r, w)).2
    = (r, w) ∧
  (save_value path_str Pep440VersionFormatter_format module_globals (r, w)).2
    = (r, w) ∧
  (current_version r = None →
   (__get_current_version path_str Version_from_string module_globals
      (r, w)).1
   = inl (NameError "_DynamicVersionSource__find_dynamic_config")) ∧
  (current_version r = None →
   (save_value path_str Pep440VersionFormatter_format module_globals (r, w)).1
   = inl (ValueError "No current value set")) ∧
  (∀ v, current_version r = Some v →
   (save_value path_str Pep440VersionFormatter_format module_globals (r, w)).1
   = inl (NameError "_DynamicVersionSource__find_dynamic_config")).
Proof.
  unfold __get_current_version, save_value, __get_dynamic_version, bind,
    get_self, load_global, raise, ret. simpl.
  destruct (current_version r) as [v|]; simpl; repeat split; done.
Qed.
End ResolverExtras.

(** ** [BumpCommand.handle] *)

Section PluginProperties.
Context {V : Type}.
Variable Version_new : toml → exn + V.
Variables next_major next_minor next_micro : V → exn + V.
Variables next_alpha next_beta next_release_candidate : V → exn + V.
Variables Version_major Version_minor Version_micro : V → Z.
Variable Version_str : V → string.
Variable int_str : Z → string.
Variables red bold : string → string.

Local Abbreviation run_handle :=
  (handle Version_new next_major next_minor next_micro next_alpha next_beta
          next_release_candidate Version_major Version_minor Version_micro
          Version_str int_str red bold).

Local Ltac split_branches :=
  repeat match goal with
    | |- context [match ?x with _ => _ end] =>
        match type of x with
        | bool => destruct x
        | option _ => destruct x
        | sum _ _ => destruct x
        end; simpl
    end.

(** X11.  What one run of [handle] does.  It either raises before any
    effect, or prints one message and changes nothing, or calls
    [set_pyproject_value] once, with the single key [project, version],
    and then writes the manifest once. *)
Theorem handle_effects (project : Project) (options : Namespace)
    (res : exn + unit) (evs : list plugin_event) :
  run_handle project options [] = (res, evs) →
  (∃ e, res = inl e ∧ evs = []) ∨
  (res = inr tt ∧ ∃ msg, evs = [Echo msg]) ∨
  (res = inr tt ∧
   ∃ value, evs = [SetPyprojectValue value ["project, version"];
                   WritePyproject true]).
Proof.
  unfold handle, choose_next_version, log, emit, bind, lift, ret. simpl.
  split_branches; intros [= <- <-]; eauto 7.
Qed.

(** X12.  A bump of the major, minor or micro part does not look at
    [--pre] or [--dry-run]: when the manifest holds a version that
    parses and the bump succeeds, [handle] sets the text of the next
    version and writes the manifest, whatever the two options are. *)
Theorem handle_plain_bump (project : Project) (options : Namespace)
    (part : string) (bump : V → exn + V) (value : toml) (version next : V) :
  (part, bump) ∈ [("major", next_major); ("minor", next_minor);
                  ("micro", next_micro)] →
  what options = Some part →
  get_pyproject_value (pyproject project) ["project"; "version"] = Some value →
  Version_new value = inr version →
  bump version = inr next →
  run_handle project options [] =
    (inr tt, [SetPyprojectValue (Version_str next) ["project, version"];
              WritePyproject true]).
Proof.
  intros Hpart Hwhat Hvalue Hparse Hbump.
  unfold handle, choose_next_version, log, emit, bind, lift, ret.
  rewrite Hvalue, Hwhat. simpl. rewrite Hparse.
  repeat (apply elem_of_cons in Hpart as [[= -> ->]|Hpart];
          [simpl; by rewrite Hbump|]).
  by apply elem_of_nil in Hpart.
Qed.
End PluginProperties.

Example example_handle_major :
  example_handle example_project (mkNamespace (Some "major") None true) []
  = (inr tt, [SetPyprojectValue "2.0.0" ["project, version"];
              WritePyproject true]).
Proof. by vm_compute. Qed.

(** ** The further theorems at work on the concrete project *)

Lemma replace_dynamic_version_replaces_span_witness :
  let w := example_world (version_line "1.2.3") in
  let v := text_of_string "10.0.0rc1" in
  ∃ (a b : nat) s' w',
    a ≤ b ≤ length (version_line "1.2.3") ∧
    Match_span example_match "version" = inr (Z.of_nat a, Z.of_nat b) ∧
    replace_dynamic_version example_str nt example_encodable v
      (example_store, w) = (inr tt, (example_store, w')) ∧
    disk w' = <[file example_store := write_translate nt s']> (disk w) ∧
    (CR ∉ v → files w' = <[file example_store := s']> (files w)) ∧
    length s' = a + length v + (length (version_line "1.2.3") - b) ∧
    (∀ p, p < a → s' !! p = version_line "1.2.3" !! p) ∧
    (∀ k, k < length v → s' !! (a + k) = v !! k) ∧
    (∀ k, s' !! (a + length v + k) = version_line "1.2.3" !! (b + k)).
Proof.
  apply (replace_dynamic_version_replaces_span example_str nt
           example_encodable example_store
           (example_world (version_line "1.2.3")) (version_line "1.2.3")
           (text_of_string "10.0.0rc1") example_match).
  - reflexivity.
  - vm_compute. reflexivity.
  - vm_compute. reflexivity.
  - vm_compute. reflexivity.
  - vm_compute. reflexivity.
Defined.

Lemma replace_dynamic_version_error_outcomes_witness :
  let w := example_world (version_line "1.2.3") in
  let w' := mkWorld {[ example_file := [] ]}
                    [IoRead example_file; IoTruncate example_file] in
  example_store = example_store ∧
  ((disk w' = disk w ∧
    (trace w' = trace w ∨ trace w' = trace w ++ [IoRead (file example_store)])) ∨
   (UnicodeEncodeError "character cannot be encoded"
      = UnicodeEncodeError "character cannot be encoded" ∧
    disk w' = <[file example_store := []]> (disk w) ∧
    files w' !! file example_store = Some [] ∧
    trace w' = trace w ++ [IoRead (file example_store);
                           IoTruncate (file example_store)])).
Proof.
  apply (replace_dynamic_version_error_outcomes example_str posix
           example_encodable example_store example_store
           (example_world (version_line "1.2.3"))
           (mkWorld {[ example_file := [] ]}
                    [IoRead example_file; IoTruncate example_file])
           [56448%N] (UnicodeEncodeError "character cannot be encoded")).
  vm_compute. reflexivity.
Defined.


Lemma dynamic_version_stale_after_own_write_witness :
  ∃ d1 w1 w2 s',
    dynamic_version example_str
      (DynamicVersionConfig_init example_file DEFAULT_REGEX,
       example_world (version_line "1.2.3"))
      = (inr (Some (text_of_string "1.2.3")), (d1, w1)) ∧
    replace_dynamic_version example_str posix example_encodable
      (text_of_string "2.0.0") (d1, w1) = (inr tt, (d1, w2)) ∧
    files w2 !! example_file = Some s' ∧
    captured_version DEFAULT_REGEX s' = inr (Some (text_of_string "2.0.0")) ∧
    dynamic_version example_str (d1, w2)
      = (inr (Some (text_of_string "1.2.3")), (d1, w2)).
Proof.
  apply (dynamic_version_stale_after_own_write example_str posix
           example_encodable
           (example_world (version_line "1.2.3")) example_file
           (version_line "1.2.3") (text_of_string "1.2.3")
           (text_of_string "2.0.0")).
  - vm_compute. reflexivity.
  - vm_compute. reflexivity.
  - split; [discriminate|]. vm_compute. repeat constructor; discriminate.
  - vm_compute. reflexivity.
  - vm_compute. reflexivity.
Defined.

Lemma write_new_version_round_trip_witness :
  ∃ (a b : nat) d1 w1 d2 w2,
    a ≤ b ≤ length (version_line "1.2.3") ∧
    Match_span example_match "version" = inr (Z.of_nat a, Z.of_nat b) ∧
    replace_dynamic_version example_str nt example_encodable
      (text_of_string "2.0.0")
      (DynamicVersionConfig_init example_file DEFAULT_REGEX,
       example_world (version_line "1.2.3")) = (inr tt, (d1, w1)) ∧
    disk w1 !! example_file
      = Some (write_translate nt
                (take a (version_line "1.2.3") ++ text_of_string "2.0.0"
                 ++ drop b (version_line "1.2.3"))) ∧
    files w1 !! example_file
      = Some (take a (version_line "1.2.3") ++ text_of_string "2.0.0"
              ++ drop b (version_line "1.2.3")) ∧
    dynamic_version example_str (d1, w1)
      = (inr (Some (text_of_string "2.0.0")), (d2, w2)).
Proof.
  apply (write_new_version_round_trip example_str nt example_encodable
           (example_world (version_line "1.2.3")) example_file
           (version_line "1.2.3") (text_of_string "2.0.0") example_match).
  - vm_compute. reflexivity.
  - vm_compute. reflexivity.
  - split; [discriminate|]. vm_compute. repeat constructor; discriminate.
  - vm_compute. reflexivity.
  - vm_compute. reflexivity.
Defined.

Lemma dynamic_version_default_delimited_witness :
  let V := text_of_string "1.2.3" in
  V ≠ [] ∧ (NEWLINE ∉ V) ∧
  ∃ s p3,
    files (example_world (quoted_version_line DQUOTE SQUOTE)) !! example_file
      = Some s ∧
    char_at QUOTES s p3 ∧
    (∀ k, k < length V → s !! (p3 + 1 + k) = V !! k) ∧
    char_at QUOTES s (p3 + 1 + length V).
Proof.
  apply (dynamic_version_default_delimited example_str
           (example_world (quoted_version_line DQUOTE SQUOTE))
           (mkWorld (disk (example_world (quoted_version_line DQUOTE SQUOTE)))
                    [IoRead example_file])
           example_file
           (mkDynamicVersionConfig example_file DEFAULT_REGEX
              (Some (Some (text_of_string "1.2.3"))))
           (text_of_string "1.2.3")).
  vm_compute. reflexivity.
Defined.


Lemma dynamic_version_reads_assignment_witness :
  let s := text_of_string "import os" ++ [NEWLINE]
           ++ assignment_line SQUOTE (text_of_string "1.2.3rc1") DQUOTE
           ++ NEWLINE :: text_of_string "x = 1" in
  ∃ d' w',
    dynamic_version example_str
      (DynamicVersionConfig_init example_file DEFAULT_REGEX, example_world s)
    = (inr (Some (text_of_string "1.2.3rc1")), (d', w')).
Proof.
  apply (dynamic_version_reads_assignment example_str
           (example_world
              ((text_of_string "import os" ++ [NEWLINE])
               ++ assignment_line SQUOTE (text_of_string "1.2.3rc1") DQUOTE
               ++ NEWLINE :: text_of_string "x = 1"))
           example_file (text_of_string "import os" ++ [NEWLINE])
           (NEWLINE :: text_of_string "x = 1") (text_of_string "1.2.3rc1")
           SQUOTE DQUOTE).
  - vm_compute. right. left.
  - vm_compute. left.
  - split; [discriminate|]. vm_compute. repeat constructor; discriminate.
  - right. vm_compute. reflexivity.
  - right. vm_compute. reflexivity.
  - intros i Hi. vm_compute in Hi.
    do 10 (destruct i as [|i]; [vm_compute; reflexivity|]). lia.
  - vm_compute. reflexivity.
Defined.

Lemma handle_effects_witness :
  (∃ e, (inr tt : exn + unit) = inl e
        ∧ [SetPyprojectValue "1.3.0" ["project, version"];
           WritePyproject true] = []) ∨
  ((inr tt : exn + unit) = inr tt ∧
   ∃ msg, [SetPyprojectValue "1.3.0" ["project, version"];
           WritePyproject true] = [Echo msg]) ∨
  ((inr tt : exn + unit) = inr tt ∧
   ∃ value, [SetPyprojectValue "1.3.0" ["project, version"];
             WritePyproject true]
            = [SetPyprojectValue value ["project, version"];
               WritePyproject true]).
Proof.
  apply (handle_effects example_Version_new (example_next 0) (example_next 1)
           (example_next 2)
           (fun _ => inl (InvalidVersion "no pre-release in the example"))
           (fun _ => inl (InvalidVersion "no pre-release in the example"))
           (fun _ => inl (InvalidVersion "no pre-release in the example"))
           (fun v => Z.of_nat v.1.1) (fun v => Z.of_nat v.1.2)
           (fun v => Z.of_nat v.2)
           example_Version_str (fun z => pretty z) (fun s => s) (fun s => s)
           example_project (mkNamespace (Some "minor") None false)).
  vm_compute. reflexivity.
Defined.

Lemma handle_plain_bump_witness :
  example_handle example_project (mkNamespace (Some "micro") (Some "rc") false)
    []
  = (inr tt, [SetPyprojectValue "1.2.4" ["project, version"];
              WritePyproject true]).
Proof.
  apply (handle_plain_bump example_Version_new (example_next 0)
           (example_next 1) (example_next 2)
           (fun _ => inl (InvalidVersion "no pre-release in the example"))
           (fun _ => inl (InvalidVersion "no pre-release in the example"))
           (fun _ => inl (InvalidVersion "no pre-release in the example"))
           (fun v => Z.of_nat v.1.1) (fun v => Z.of_nat v.1.2)
           (fun v => Z.of_nat v.2)
           example_Version_str (fun z => pretty z) (fun s => s) (fun s => s)
           example_project (mkNamespace (Some "micro") (Some "rc") false)
           "micro" (example_next 2) (TStr "1.2.3") (1, 2, 3) (1, 2, 4)).
  - right. right. left.
  - reflexivity.
  - reflexivity.
  - vm_compute. reflexivity.
  - reflexivity.
Defined.


Lemma successive_writes_witness :
  ∃ (a b : nat) d1 w1 w2 w2',
    Match_span example_match "version" = inr (Z.of_nat a, Z.of_nat b) ∧
    replace_dynamic_version example_str posix example_encodable
      (text_of_string "1.3.0")
      (DynamicVersionConfig_init example_file DEFAULT_REGEX,
       example_world (version_line "1.2.3")) = (inr tt, (d1, w1)) ∧
    replace_dynamic_version example_str posix example_encodable
      (text_of_string "2.0.0") (d1, w1) = (inr tt, (d1, w2)) ∧
    replace_dynamic_version example_str posix example_encodable
      (text_of_string "2.0.0")
      (DynamicVersionConfig_init example_file DEFAULT_REGEX,
       example_world (version_line "1.2.3")) = (inr tt, (d1, w2')) ∧
    disk w2 = disk w2' ∧
    disk w2 !! example_file
      = Some (write_translate posix
                (take a (version_line "1.2.3") ++ text_of_string "2.0.0"
                 ++ drop b (version_line "1.2.3"))).
Proof.
  apply (successive_writes example_str posix example_encodable
           (example_world (version_line "1.2.3")) example_file
           (version_line "1.2.3") (text_of_string "1.3.0")
           (text_of_string "2.0.0") example_match).
  - vm_compute. reflexivity.
  - vm_compute. reflexivity.
  - split; [discriminate|]. vm_compute. repeat constructor; discriminate.
  - vm_compute. reflexivity.
  - vm_compute. reflexivity.
  - vm_compute. reflexivity.
Defined.
